(** * render_invoice_images: the invoice rendering script

    A shallow embedding of [scripts/render_invoice_images.py] and the
    properties of its command-line behaviour.

    The script is glue code around three collaborators: [pathlib] (path
    values and the file-system calls made through them), the [pdf2image]
    rasterizer and the image objects it returns.  The collaborators are
    modelled first, then the script itself, statement by statement. *)

From Stdlib Require Import ZArith String Ascii List Lia.
From stdpp Require Import base option list strings gmap.

Local Open Scope string_scope.
Local Open Scope list_scope.

(** ** pathlib: pure paths (POSIX flavour)

    A path value is an anchor ([""] for a relative path, ["/"] or ["//"])
    and the list of its components.  Building a path from a string drops
    empty components and ["."], and keeps [".."]. *)

Definition sep : ascii := "/"%char.

(** [s.split('/')] *)
Fixpoint split_sep (s : string) : list string :=
  match s with
  | EmptyString => [EmptyString]
  | String c s' =>
      if Ascii.eqb c sep then EmptyString :: split_sep s'
      else match split_sep s' with
           | [] => [String c EmptyString]
           | w :: ws => String c w :: ws
           end
  end.

(** [s.lstrip('/')] *)
Fixpoint lstrip_sep (s : string) : string :=
  match s with
  | String c s' => if Ascii.eqb c sep then lstrip_sep s' else s
  | EmptyString => EmptyString
  end.

(** [posixpath.splitroot] without the drive: exactly two leading slashes
    are kept as the root ["//"], any other positive number collapses to
    ["/"]. *)
Definition splitroot (s : string) : string * string :=
  let rest := lstrip_sep s in
  match String.length s - String.length rest with
  | 0 => ("", s)
  | 2 => ("//", rest)
  | _ => ("/", rest)
  end.

(** A path value: its anchor and its components, first one first. *)
Record Path : Type := MkPath { root : string; names : list string }.

(** The components pathlib keeps: neither empty nor [.]. *)
Definition keep_name (x : string) : bool :=
  negb (String.eqb x "") && negb (String.eqb x ".").

(** [Path(s)] *)
Definition Path_of (s : string) : Path :=
  let '(r, rest) := splitroot s in
  {| root := r; names := List.filter keep_name (split_sep rest) |}.

(** [str(path)] *)
Definition Path_str (p : Path) : string :=
  match root p, names p with
  | "", [] => "."
  | r, ns => r +:+ String.concat "/" ns
  end.

(** [path.parent]: a path without components is its own parent. *)
Definition Path_parent (p : Path) : Path :=
  match names p with
  | [] => p
  | _ :: _ => {| root := root p; names := removelast (names p) |}
  end.

(** [bool(path)]: path objects define neither [__bool__] nor [__len__]. *)
Definition Path_bool (p : Path) : bool := true.

#[global] Instance Path_eq_dec : EqDecision Path.
Proof. solve_decision. Defined.

#[global] Instance Path_countable : Countable Path.
Proof.
  apply (inj_countable' (λ p, (root p, names p)) (λ rn, MkPath rn.1 rn.2)).
  by intros [].
Defined.

(** ** The process and its environment *)

(** The error numbers the file-system calls below can fail with. *)
Inductive errno : Set := ENOENT | ENOTDIR | EISDIR | EEXIST.

(** The exceptions that can leave [main]: the three [SystemExit]s it raises
    itself, the [OSError]s of the file-system calls, and whatever the
    rasterizer raises. *)
Inductive exception : Type :=
  | SystemExit (code : string)
  | OSError (e : errno) (filename : string)
  | ForeignError (what : string).

(** A call returns a value or raises. *)
Inductive result (A : Type) : Type :=
  | Ok (a : A)
  | Raise (e : exception).
Arguments Ok {A} a.
Arguments Raise {A} e.

Section Model.

(** The page images returned by the rasterizer are opaque to the script:
    it only picks one and calls [save] on it. *)
Context {image : Type}.

(** What a regular file holds: a picture written by [save] in some
    format, or anything else. *)
Inductive file_data : Type :=
  | Encoded (fmt : string) (img : image)
  | Blob (bytes : string).

(** What is stored under a name. *)
Inductive inode : Type :=
  | Dir
  | File (d : file_data).

(** The calls that reach the outside world, in the order they happened. *)
Inductive event : Type :=
  | Rasterized (pdf : string) (dpi : Z)
  | MadeDir (p : Path)
  | Saved (p : Path) (fmt : string) (img : image)
  | Printed (line : string).

(** The file system maps a path to what is stored under that name; the
    anchors (the working directory and the root) are always directories.
    Names are the ones pathlib computes: two spellings that pathlib
    normalises to the same path are the same file.  The operating system
    also resolves [".."], symbolic links and hard links, and knows where
    the working directory lies below the root; this map does none of
    that, a name is looked up as it is spelled.  It therefore tells what
    the calls below do for paths without a [".."] component, taken from
    one anchor, on a file system without links.  Properties that depend
    on which file a path names are stated for such paths; the others
    relate the result, the saves and the lines of one and the same
    run. *)
Record World : Type := MkWorld {
  fs : gmap Path inode;
  history : list event
}.

(** Code with effects: from the world before to a result and the world
    after. *)
Definition IO (A : Type) : Type := World → result A * World.

Definition ret {A} (a : A) : IO A := λ w, (Ok a, w).

Definition raise {A} (e : exception) : IO A := λ w, (Raise e, w).

Definition bind {A B} (m : IO A) (k : A → IO B) : IO B :=
  λ w, match m w with
       | (Ok a, w') => k a w'
       | (Raise e, w') => (Raise e, w')
       end.

(** [try: m  except BaseException as e: handler e] *)
Definition try_except {A} (m : IO A) (handler : exception → IO A) : IO A :=
  λ w, match m w with
       | (Ok a, w') => (Ok a, w')
       | (Raise e, w') => handler e w'
       end.

(** Put a call on record. *)
Definition log (ev : event) : IO unit :=
  λ w, (Ok tt, {| fs := fs w; history := history w ++ [ev] |}).

End Model.

Arguments file_data : clear implicits.
Arguments inode : clear implicits.
Arguments event : clear implicits.
Arguments World : clear implicits.
Arguments IO : clear implicits.

Declare Scope io_scope.
Delimit Scope io_scope with io.
Notation "'let*' x ':=' m 'in' k" := (bind m (λ x, k))
  (at level 10, x name, m at level 100, k at level 200) : io_scope.
Notation "m '>>' k" := (bind m (λ _, k))
  (at level 100, k at level 200, right associativity) : io_scope.

Section Script.

Context {image : Type}.

Local Open Scope io_scope.

Abbreviation filesystem := (gmap Path (inode image)).

(** *** File-system calls *)

(** [os.stat], by the components from the anchor down; [rns] holds the
    components of the path last one first, so that the recursive call is
    on the parent. *)
Fixpoint stat_rev (m : filesystem) (r : string) (rns : list string)
  : errno + inode image :=
  match rns with
  | [] => inr Dir
  | _ :: up =>
      match stat_rev m r up with
      | inl e => inl e
      | inr (File _) => inl ENOTDIR
      | inr Dir =>
          match m !! MkPath r (rev rns) with
          | None => inl ENOENT
          | Some nd => inr nd
          end
      end
  end.

(** [os.stat(path)]: what is stored under the path, or the error. *)
Definition stat (m : filesystem) (p : Path) : errno + inode image :=
  stat_rev m (root p) (rev (names p)).

(** [path.exists()]: false when [os.stat] fails with ENOENT or ENOTDIR. *)
Definition Path_exists (p : Path) : IO image bool :=
  λ w, (Ok (match stat (fs w) p with inr _ => true | inl _ => false end), w).

(** [path.is_dir()] *)
Definition Path_is_dir (p : Path) : IO image bool :=
  λ w, (Ok (match stat (fs w) p with inr Dir => true | _ => false end), w).

(** [os.mkdir(path)] *)
Definition os_mkdir (p : Path) : IO image unit :=
  λ w,
    match names p with
    | [] => (Raise (OSError EEXIST (Path_str p)), w)
    | _ :: _ =>
        match stat (fs w) (Path_parent p) with
        | inl e => (Raise (OSError e (Path_str p)), w)
        | inr (File _) => (Raise (OSError ENOTDIR (Path_str p)), w)
        | inr Dir =>
            match fs w !! p with
            | Some _ => (Raise (OSError EEXIST (Path_str p)), w)
            | None =>
                (Ok tt, {| fs := <[p := Dir]> (fs w);
                           history := history w ++ [MadeDir p] |})
            end
        end
    end.

(** [path.mkdir(parents=False, exist_ok=True)]:
    [[
    try: os.mkdir(self, mode)
    except FileNotFoundError: raise
    except OSError:
        if not exist_ok or not self.is_dir(): raise
    ]] *)
Definition Path_mkdir_here (p : Path) : IO image unit :=
  try_except (os_mkdir p)
    (λ e, match e with
          | OSError ENOENT _ => raise e
          | OSError _ _ =>
              let* d := Path_is_dir p in
              if d then ret tt else raise e
          | _ => raise e
          end).

(** [path.mkdir(parents=True, exist_ok=True)], for the path with anchor
    [r] and components [rev rns]:
    [[
    try: os.mkdir(self, mode)
    except FileNotFoundError:
        if not parents or self.parent == self: raise
        self.parent.mkdir(parents=True, exist_ok=True)
        self.mkdir(mode, parents=False, exist_ok=exist_ok)
    except OSError:
        if not exist_ok or not self.is_dir(): raise
    ]] *)
Fixpoint Path_mkdir_rev (r : string) (rns : list string) : IO image unit :=
  let self := MkPath r (rev rns) in
  let retry :=
    match rns with
    | [] => None
    | _ :: up => Some (Path_mkdir_rev r up >> Path_mkdir_here self)
    end in
  try_except (os_mkdir self)
    (λ e, match e with
          | OSError ENOENT _ =>
              match retry with
              | None => raise e
              | Some again => again
              end
          | OSError _ _ =>
              let* d := Path_is_dir self in
              if d then ret tt else raise e
          | _ => raise e
          end).

(** [path.mkdir(parents=True, exist_ok=True)] *)
Definition Path_mkdir (p : Path) : IO image unit :=
  Path_mkdir_rev (root p) (rev (names p)).

(** *** The image object

    [image.save(filename, fmt)] opens [filename] for writing and stores
    the encoded picture there. *)
Definition Image_save (img : image) (filename fmt : string) : IO image unit :=
  λ w,
    let p := Path_of filename in
    match names p with
    | [] => (Raise (OSError EISDIR filename), w)
    | _ :: _ =>
        match stat (fs w) (Path_parent p) with
        | inl e => (Raise (OSError e filename), w)
        | inr (File _) => (Raise (OSError ENOTDIR filename), w)
        | inr Dir =>
            match fs w !! p with
            | Some Dir => (Raise (OSError EISDIR filename), w)
            | _ =>
                (Ok tt, {| fs := <[p := File (Encoded fmt img)]> (fs w);
                           history := history w ++ [Saved p fmt img] |})
            end
        end
    end.

(** [print(line)] *)
Definition print (line : string) : IO image unit := log (Printed line).

(** *** The rasterizer

    [convert_from_path(pdf, dpi=...)] reads the file system and returns
    the page images or raises; it writes nothing. *)
Definition rasterizer : Type :=
  string → Z → filesystem → result (list image).

Definition call_rasterizer (convert_from_path : rasterizer)
    (pdf : string) (dpi : Z) : IO image (list image) :=
  log (Rasterized pdf dpi) >>
  λ w, (convert_from_path pdf dpi (fs w), w).

(** *** The script *)

(** The [argparse] namespace returned by [parse_args()]: [--input] is
    required, [--png] and [--jpg] default to [None], [--dpi] to 200. *)
Record Namespace : Type := MkNamespace {
  input : string;
  png : option string;
  jpg : option string;
  dpi : Z
}.

(** Truth value of an optional string argument: [None] and [''] are
    false. *)
Definition truthy (a : option string) : bool :=
  match a with
  | None => false
  | Some s => negb (String.eqb s "")
  end.

(** The string held by an argument that passed the truth test. *)
Definition arg_value (a : option string) : string := default "" a.

(** [[
    def ensure_parent(path: Path):
        if path and path.parent and not path.parent.exists():
            path.parent.mkdir(parents=True, exist_ok=True)
    ]] *)
Definition ensure_parent (path : Path) : IO image unit :=
  if Path_bool path && Path_bool (Path_parent path) then
    let* there := Path_exists (Path_parent path) in
    if negb there then Path_mkdir (Path_parent path) else ret tt
  else ret tt.

(** [[
    outputs = []
    if args.png: outputs.append((Path(args.png), 'PNG'))
    if args.jpg: outputs.append((Path(args.jpg), 'JPEG'))
    ]] *)
Definition build_outputs (args : Namespace) : list (Path * string) :=
  let outputs := [] in
  let outputs :=
    if truthy (png args)
    then outputs ++ [(Path_of (arg_value (png args)), "PNG")] else outputs in
  let outputs :=
    if truthy (jpg args)
    then outputs ++ [(Path_of (arg_value (jpg args)), "JPEG")] else outputs in
  outputs.

Definition confirmation (fmt : string) (output_path : Path) : string :=
  "Generated " +:+ fmt +:+ " image at " +:+ Path_str output_path.

(** The body of the [for output_path, fmt in outputs] loop. *)
Definition write_output (first_page : image) (out : Path * string)
  : IO image unit :=
  let '(output_path, fmt) := out in
  ensure_parent output_path >>
  Image_save first_page (Path_str output_path) fmt >>
  print (confirmation fmt output_path).

(** [for x in l: body(x)] *)
Fixpoint for_each {A} (l : list A) (body : A → IO image unit)
  : IO image unit :=
  match l with
  | [] => ret tt
  | x :: l' => body x >> for_each l' body
  end.

(** [main()], after [args = parse_args()]. *)
Definition main (convert_from_path : rasterizer) (args : Namespace)
  : IO image unit :=
  let pdf_path := Path_of (input args) in
  let* found := Path_exists pdf_path in
  if negb found then
    raise (SystemExit ("PDF not found: " +:+ Path_str pdf_path))
  else
  let outputs := build_outputs args in
  match outputs with
  | [] => raise (SystemExit "Specify at least --png or --jpg output path.")
  | _ :: _ =>
      let* images := call_rasterizer convert_from_path
                       (Path_str pdf_path) (dpi args) in
      match images with
      | [] => raise (SystemExit "No pages rendered from PDF.")
      | first_page :: _ => for_each outputs (write_output first_page)
      end
  end.

(** *** What the caller of the process observes *)

(** Exit status: 0 on return; a [SystemExit] carrying a message prints
    it on standard error and exits with 1, as does any exception that is
    not caught. *)
Definition exit_status (r : result unit) : Z :=
  match r with
  | Ok _ => 0
  | Raise _ => 1
  end.

(** The message shown to the user in place of a traceback. *)
Definition user_error (r : result unit) : option string :=
  match r with
  | Raise (SystemExit msg) => Some msg
  | _ => None
  end.

(** The lines printed, the saves made and the rasterizer calls on
    record in a history. *)
Fixpoint stdout (h : list (event image)) : list string :=
  match h with
  | [] => []
  | Printed line :: h' => line :: stdout h'
  | _ :: h' => stdout h'
  end.

Fixpoint saves (h : list (event image)) : list (Path * string * image) :=
  match h with
  | [] => []
  | Saved p fmt img :: h' => (p, fmt, img) :: saves h'
  | _ :: h' => saves h'
  end.

Fixpoint rasterizer_calls (h : list (event image)) : list (string * Z) :=
  match h with
  | [] => []
  | Rasterized pdf d :: h' => (pdf, d) :: rasterizer_calls h'
  | _ :: h' => rasterizer_calls h'
  end.

End Script.

Arguments rasterizer : clear implicits.

(** ** Sample runs *)

Module Sample.

(** Pages are numbered. *)
Definition page := nat.

Definition invoice : inode page := File (Blob "%PDF-1.4").

Definition fresh (m : gmap Path (inode page)) : World page :=
  {| fs := m; history := [] |}.

Definition disk : gmap Path (inode page) :=
  {[ Path_of "invoice.pdf" := invoice ]}.

Definition pages (n : nat) : rasterizer page :=
  λ _ _ _, Ok (seq 0 n).

Definition args_png := MkNamespace "invoice.pdf" (Some "out.png") None 200.
Definition args_jpg := MkNamespace "invoice.pdf" None (Some "out.jpg") 200.
Definition args_both :=
  MkNamespace "invoice.pdf" (Some "img/a/out.png") (Some "img/b/out.jpg") 200.
Definition args_clash :=
  MkNamespace "invoice.pdf" (Some "out") (Some "out/invoice.jpg") 200.

(** A disk where the regular file [notes] stands where a directory would
    be needed. *)
Definition blocked_disk : gmap Path (inode page) :=
  {[ Path_of "invoice.pdf" := invoice;
     Path_of "notes" := File (Blob "to do") ]}.

(** A rasterizer that cannot read the document. *)
Definition broken : rasterizer page :=
  λ _ _ _, Raise (ForeignError "PDFPageCountError").


End Sample.

(** * Vocabulary of the properties *)

(** The string contains a slash. *)
Fixpoint has_sep (s : string) : bool :=
  match s with
  | EmptyString => false
  | String c s' => Ascii.eqb c sep || has_sep s'
  end.

(** A component as [Path(s)] produces them. *)
Definition good_name (x : string) : Prop :=
  keep_name x = true ∧ has_sep x = false.

(** A path as [Path(s)] produces them. *)
Definition wf_path (p : Path) : Prop :=
  (root p = "" ∨ root p = "/" ∨ root p = "//") ∧ Forall good_name (names p).

(** The path is spelled without [..] components.  The file system of
    this development is keyed by the spelling of a path; only for such
    paths is the spelling sure to tell which file is meant. *)
Definition plain (p : Path) : bool :=
  forallb (λ n, negb (String.eqb n "..")) (names p).


Section Vocabulary.

Context {image : Type}.

Implicit Types (w : World image) (m : gmap Path (inode image)).
Implicit Types (p q : Path) (h : list (event image)).

(** [q] is [p] or a directory above it. *)
Definition above q p : Prop :=
  root q = root p ∧ names q `prefix_of` names p.

(** Between [w] and [w'] the directories [made] were created, in this
    order, and nothing else happened. *)
Definition dirs_added (made : list Path) w w' : Prop :=
  history w' = history w ++ map MadeDir made ∧
  ∀ q, (q ∈ made → fs w !! q = None ∧ fs w' !! q = Some Dir) ∧
       (q ∉ made → fs w' !! q = fs w !! q).

(** Only directories were added. *)
Definition only_dirs_added w w' : Prop := ∃ made, dirs_added made w w'.

(** Only directories on the way to [p] were added. *)
Definition only_dirs_added_above p w w' : Prop :=
  ∃ made, Forall (λ q, above q p) made ∧ dirs_added made w w'.

(** What both flavours of [mkdir] guarantee: directories on the way to
    [p] are all that is added; on return [p] is a directory, and the only
    exceptions are [OSError]s. *)
Definition mkdir_post p (r : result unit) w w' : Prop :=
  only_dirs_added_above p w w' ∧
  match r with
  | Ok _ => stat (fs w') p = inr Dir
  | Raise e => ∃ en f, e = OSError en f
  end.

(** The world after [out] was written on top of [w1]. *)
Definition after_write (first_page : image) (out : Path * string) w1
  : World image :=
  {| fs := <[out.1 := File (Encoded out.2 first_page)]> (fs w1);
     history := history w1 ++
       [Saved out.1 out.2 first_page; Printed (confirmation out.2 out.1)] |}.

(** The save on record for a written output. *)
Definition record_of (first_page : image) (out : Path * string)
  : Path * string * image := (out.1, out.2, first_page).

(** The line printed for a written output. *)
Definition line_of (out : Path * string) : string :=
  confirmation out.2 out.1.

(** Every save in a stretch of history is followed at once by its
    confirmation line, and no other line is printed. *)
Inductive each_save_confirmed : list (event image) → Prop :=
  | confirmed_nil : each_save_confirmed []
  | confirmed_rasterized pdf d h :
      each_save_confirmed h → each_save_confirmed (Rasterized pdf d :: h)
  | confirmed_dir p h :
      each_save_confirmed h → each_save_confirmed (MadeDir p :: h)
  | confirmed_save p fmt img h :
      each_save_confirmed h →
      each_save_confirmed (Saved p fmt img :: Printed (confirmation fmt p) :: h).

(** What a run of the loop over [outs] leaves behind when [done] is the
    part of [outs] it completed. *)
Record loop_post (first_page : image) (done : list (Path * string))
    w w' : Prop := {
  loop_events :
    ∃ evs, history w' = history w ++ evs ∧ each_save_confirmed evs;
  loop_saves :
    saves (history w') = saves (history w) ++ map (record_of first_page) done;
  loop_stdout :
    stdout (history w') = stdout (history w) ++ map line_of done;
  loop_rasterizer :
    rasterizer_calls (history w') = rasterizer_calls (history w);
  loop_fs : ∀ q,
    fs w' !! q = fs w !! q ∨
    (fs w !! q = None ∧ fs w' !! q = Some Dir) ∨
    (∃ fmt, (q, fmt) ∈ done ∧
            fs w' !! q = Some (File (Encoded fmt first_page)));
  loop_written : ∀ out, out ∈ done →
    ∃ fmt, (out.1, fmt) ∈ done ∧
           fs w' !! out.1 = Some (File (Encoded fmt first_page));
  loop_last : ∀ out done', done = done' ++ [out] →
    fs w' !! out.1 = Some (File (Encoded out.2 first_page))
}.

(** The world once the rasterizer has been called. *)
Definition rasterizing (args : Namespace) w : World image :=
  {| fs := fs w;
     history := history w ++
       [Rasterized (Path_str (Path_of (input args))) (dpi args)] |}.

(** [Path(args.input).exists()] in the world [w]. *)
Definition input_exists (args : Namespace) w : bool :=
  match stat (fs w) (Path_of (input args)) with
  | inr _ => true
  | inl _ => false
  end.

(** What the rasterizer answers for this invocation. *)
Definition pages_of (conv : rasterizer image) (args : Namespace) w
  : result (list image) :=
  conv (Path_str (Path_of (input args))) (dpi args) (fs w).

(** The four ways a run can go. *)
Inductive main_outcome (conv : rasterizer image) args w
    (r : result unit) w' : Prop :=
  | rejected msg :
      input_exists args w = false ∨ build_outputs args = [] →
      r = Raise (SystemExit msg) → w' = w →
      main_outcome conv args w r w'
  | rasterizer_raised e :
      input_exists args w = true → build_outputs args ≠ [] →
      pages_of conv args w = Raise e →
      r = Raise e → w' = rasterizing args w →
      main_outcome conv args w r w'
  | nothing_rendered :
      input_exists args w = true → build_outputs args ≠ [] →
      pages_of conv args w = Ok [] →
      r = Raise (SystemExit "No pages rendered from PDF.") →
      w' = rasterizing args w →
      main_outcome conv args w r w'
  | looped first_page rest done :
      input_exists args w = true → build_outputs args ≠ [] →
      pages_of conv args w = Ok (first_page :: rest) →
      loop_post first_page done (rasterizing args w) w' →
      match r with
      | Ok _ => done = build_outputs args
      | Raise e =>
          (∃ en f, e = OSError en f) ∧
          ∃ out rest' w1,
            build_outputs args = done ++ out :: rest' ∧
            for_each done (write_output first_page) (rasterizing args w)
              = (Ok tt, w1) ∧
            write_output first_page out w1 = (Raise e, w')
      end →
      main_outcome conv args w r w'.




(** The file system has no orphans: whatever is stored has a name of its
    own (the anchors are not stored) and lies in a directory that [stat]
    finds. *)
Definition consistent m : bool :=
  forallb (λ entry, match names entry.1, stat m (Path_parent entry.1) with
                    | _ :: _, inr Dir => true
                    | _, _ => false
                    end)
          (map_to_list m).

(** The rasterizer call a run makes, if it gets that far. *)
Definition expected_call (args : Namespace) w : list (string * Z) :=
  if input_exists args w && negb (bool_decide (build_outputs args = []))
  then [(Path_str (Path_of (input args)), dpi args)]
  else [].

End Vocabulary.

(** * Properties *)

(** ** pathlib: a path survives the round trip through its string *)

Lemma split_sep_cons s : ∃ w ws, split_sep s = w :: ws.
Proof.
  induction s as [|c s [w [ws IH]]]; simpl; [by eauto|].
  destruct (Ascii.eqb c sep); rewrite ?IH; eauto.
Qed.

Lemma split_sep_has_sep s : Forall (λ x, has_sep x = false) (split_sep s).
Proof.
  induction s as [|c s IH]; simpl; [by repeat constructor|].
  destruct (Ascii.eqb c sep) eqn:Hc; [by constructor|].
  destruct (split_sep s) as [|w ws]; [repeat constructor; simpl; by rewrite Hc|].
  inversion IH; subst. constructor; [simpl; by rewrite Hc|done].
Qed.

Lemma split_sep_plain a : has_sep a = false → split_sep a = [a].
Proof.
  induction a as [|c a IH]; simpl; [done|].
  destruct (Ascii.eqb c sep); simpl; [done|].
  intros H. by rewrite (IH H).
Qed.

Lemma split_sep_app a b :
  has_sep a = false → split_sep (a +:+ String sep b) = a :: split_sep b.
Proof.
  induction a as [|c a IH]; simpl; [done|].
  destruct (Ascii.eqb c sep); simpl; [done|].
  intros H. by rewrite (IH H).
Qed.

Lemma split_sep_concat ns :
  ns ≠ [] → Forall good_name ns → split_sep (String.concat "/" ns) = ns.
Proof.
  induction ns as [|n ns IH]; [done|]. intros _ Hg.
  inversion Hg as [|? ? [_ Hn] Hns]; subst.
  destruct ns as [|n' ns]; [by apply split_sep_plain|].
  change (String.concat "/" (n :: n' :: ns))
    with (n +:+ String sep (String.concat "/" (n' :: ns))).
  rewrite (split_sep_app _ _ Hn). f_equal. by apply IH.
Qed.

Lemma filter_keep_good ns : Forall good_name ns → List.filter keep_name ns = ns.
Proof.
  induction 1 as [|n ns [Hk _] _ IH]; simpl; [done|]. by rewrite Hk, IH.
Qed.

Lemma lstrip_sep_concat ns :
  Forall good_name ns →
  lstrip_sep (String.concat "/" ns) = String.concat "/" ns.
Proof.
  intros Hg. destruct Hg as [|n ns [Hk Hn] _]; [done|].
  assert (∃ c n', n = String c n' ∧ Ascii.eqb c sep = false) as (c & n' & -> & Hc).
  { destruct n as [|c n']; [done|]. simpl in Hn.
    destruct (Ascii.eqb c sep) eqn:Hc; [done|]. eauto. }
  destruct ns; simpl; by rewrite Hc.
Qed.

Lemma names_split_concat ns :
  Forall good_name ns →
  List.filter keep_name (split_sep (String.concat "/" ns)) = ns.
Proof.
  intros Hg. destruct ns as [|n ns]; [done|].
  rewrite split_sep_concat by done. by apply filter_keep_good.
Qed.

Lemma Path_of_str p : wf_path p → Path_of (Path_str p) = p.
Proof.
  destruct p as [r ns]. intros [Hr Hg]; simpl in *.
  pose proof (lstrip_sep_concat ns Hg) as Hl.
  pose proof (names_split_concat ns Hg) as Hs.
  destruct Hr as [-> | [-> | ->]].
  - destruct ns as [|n ns]; [done|].
    change (Path_str _) with (String.concat "/" (n :: ns)).
    unfold Path_of, splitroot. rewrite Hl, Nat.sub_diag. by rewrite Hs.
  - change (Path_str _) with (String sep (String.concat "/" ns)).
    unfold Path_of, splitroot.
    assert (lstrip_sep (String sep (String.concat "/" ns))
            = String.concat "/" ns) as -> by (simpl; done).
    replace (String.length (String sep (String.concat "/" ns))
             - String.length (String.concat "/" ns)) with 1
      by (simpl; lia).
    by rewrite Hs.
  - change (Path_str _) with (String sep (String sep (String.concat "/" ns))).
    unfold Path_of, splitroot.
    assert (lstrip_sep (String sep (String sep (String.concat "/" ns)))
            = String.concat "/" ns) as -> by (simpl; done).
    replace (String.length (String sep (String sep (String.concat "/" ns)))
             - String.length (String.concat "/" ns)) with 2
      by (simpl; lia).
    by rewrite Hs.
Qed.

Lemma Path_of_wf s : wf_path (Path_of s).
Proof.
  unfold Path_of, splitroot.
  set (rest := lstrip_sep s).
  assert (∀ t, Forall good_name (List.filter keep_name (split_sep t))) as Hn.
  { intros t. pose proof (split_sep_has_sep t) as H.
    induction H as [|x l Hx _ IH]; simpl; [constructor|].
    destruct (keep_name x) eqn:Hk; [constructor; [by split|done]|done]. }
  destruct (String.length s - String.length rest) as [|[|[|n]]];
    split; simpl; auto.
Qed.

(** The path printed and the path written are the same file. *)
Lemma Path_of_str_of s : Path_of (Path_str (Path_of s)) = Path_of s.
Proof. apply Path_of_str, Path_of_wf. Qed.

(** ** The file-system calls *)

Section Properties.

Context {image : Type}.

Implicit Types (w : World image) (m : gmap Path (inode image)).
Implicit Types (p q : Path) (h : list (event image)).

Ltac run :=
  unfold bind, ret, raise, try_except, log, print in *; simpl in *.

Lemma above_refl p : above p p.
Proof. by split. Qed.

Lemma above_trans p q r : above p q → above q r → above p r.
Proof. intros [? ?] [? ?]. split; [congruence|by etrans]. Qed.

Lemma above_parent r n up : above (MkPath r (rev up)) (MkPath r (rev (n :: up))).
Proof. split; [done|]. simpl. by apply prefix_app_r. Qed.

Lemma dirs_added_nil w : dirs_added [] w w.
Proof.
  split; [by rewrite app_nil_r|].
  intros q. split; [by intros ?%elem_of_nil|done].
Qed.

Lemma dirs_added_app l1 l2 w1 w2 w3 :
  dirs_added l1 w1 w2 → dirs_added l2 w2 w3 → dirs_added (l1 ++ l2) w1 w3.
Proof.
  intros (Hh1 & H1) (Hh2 & H2). split.
  { by rewrite Hh2, Hh1, map_app, app_assoc. }
  intros q. destruct (H1 q) as [H1i H1o], (H2 q) as [H2i H2o].
  rewrite elem_of_app.
  destruct (decide (q ∈ l1)) as [Hq1|Hq1], (decide (q ∈ l2)) as [Hq2|Hq2].
  - destruct (H1i Hq1) as [_ Hd], (H2i Hq2) as [Hn _]. congruence.
  - split; [|tauto].
    intros _. destruct (H1i Hq1). split; [done|]. by rewrite H2o.
  - split; [|tauto].
    intros _. destruct (H2i Hq2). split; [|done]. by rewrite <- H1o.
  - split; [tauto|]. intros _. by rewrite H2o, H1o.
Qed.

Lemma dirs_added_one w p :
  fs w !! p = None →
  dirs_added [p] w {| fs := <[p:=Dir]> (fs w);
                      history := history w ++ [MadeDir p] |}.
Proof.
  intros Hn. split; [done|]. intros q; simpl. split.
  - intros ->%list_elem_of_singleton. by rewrite lookup_insert_eq.
  - intros Hq. rewrite lookup_insert_ne; [done|].
    intros ->. apply Hq. by apply list_elem_of_singleton.
Qed.

Lemma only_dirs_added_refl w : only_dirs_added w w.
Proof. exists []. apply dirs_added_nil. Qed.

Lemma only_dirs_added_trans w1 w2 w3 :
  only_dirs_added w1 w2 → only_dirs_added w2 w3 → only_dirs_added w1 w3.
Proof. intros [l1 H1] [l2 H2]. exists (l1 ++ l2). by eapply dirs_added_app. Qed.

Lemma only_dirs_added_above_refl p w : only_dirs_added_above p w w.
Proof. exists []. split; [constructor|apply dirs_added_nil]. Qed.

Lemma only_dirs_added_above_trans p w1 w2 w3 :
  only_dirs_added_above p w1 w2 → only_dirs_added_above p w2 w3 →
  only_dirs_added_above p w1 w3.
Proof.
  intros (l1 & F1 & H1) (l2 & F2 & H2). exists (l1 ++ l2).
  split; [by apply Forall_app|by eapply dirs_added_app].
Qed.

Lemma only_dirs_added_above_mono p p' w w' :
  above p p' → only_dirs_added_above p w w' → only_dirs_added_above p' w w'.
Proof.
  intros Hp (l & F & H). exists l. split; [|done].
  eapply Forall_impl; [done|]. intros q Hq; simpl in *. by eapply above_trans.
Qed.

Lemma only_dirs_added_above_one w p :
  fs w !! p = None →
  only_dirs_added_above p w {| fs := <[p:=Dir]> (fs w);
                               history := history w ++ [MadeDir p] |}.
Proof.
  intros Hn. exists [p].
  split; [repeat constructor; apply above_refl|by apply dirs_added_one].
Qed.

Lemma only_dirs_added_above_weaken p w w' :
  only_dirs_added_above p w w' → only_dirs_added w w'.
Proof. intros (l & _ & H). by exists l. Qed.

Lemma stat_unfold m r rns : stat m (MkPath r (rev rns)) = stat_rev m r rns.
Proof. unfold stat; simpl. by rewrite rev_involutive. Qed.

Lemma Path_parent_shorter p :
  names p ≠ [] → length (names (Path_parent p)) < length (names p).
Proof.
  intros Hne. unfold Path_parent.
  destruct (names p) as [|n ns] eqn:En; [done|]. cbn [names].
  rewrite removelast_firstn_len, length_take. simpl. lia.
Qed.

Lemma stat_fold' m p : stat_rev m (root p) (rev (names p)) = stat m p.
Proof. done. Qed.

Lemma Path_parent_snoc r n up :
  Path_parent (MkPath r (rev (n :: up))) = MkPath r (rev up).
Proof.
  unfold Path_parent; simpl.
  destruct (rev up ++ [n]) eqn:E; [by destruct (rev up)|].
  by rewrite <- E, removelast_last.
Qed.

Lemma stat_rev_insert_longer m r up k x :
  length up < length (names k) →
  stat_rev (<[k:=x]> m) r up = stat_rev m r up.
Proof.
  induction up as [|n up IH]; [done|]. intros Hlen. simpl in Hlen.
  cbn [stat_rev]. rewrite IH by lia.
  rewrite lookup_insert_ne; [done|].
  intros ->. simpl in Hlen. rewrite length_app, length_rev in Hlen.
  simpl in Hlen. lia.
Qed.

(** [os.mkdir] either fails and changes nothing or adds one directory
    under an existing one. *)
Lemma os_mkdir_spec p w :
  (∃ e, os_mkdir p w = (Raise (OSError e (Path_str p)), w)) ∨
  (fs w !! p = None ∧ names p ≠ [] ∧
   stat (fs w) (Path_parent p) = inr Dir ∧
   os_mkdir p w = (Ok tt, {| fs := <[p:=Dir]> (fs w);
                             history := history w ++ [MadeDir p] |})).
Proof.
  unfold os_mkdir. destruct (names p) eqn:En; [by eauto|].
  destruct (stat _ _) as [e|[|d]]; [by eauto| |by eauto].
  destruct (fs w !! p) eqn:El; [by eauto|]. right. by rewrite ?En, ?El.
Qed.

Lemma stat_made r n up w :
  stat (fs w) (Path_parent (MkPath r (rev (n :: up)))) = inr Dir →
  stat (<[MkPath r (rev (n :: up)):=Dir]> (fs w)) (MkPath r (rev (n :: up)))
  = inr Dir.
Proof.
  rewrite Path_parent_snoc, !stat_unfold. intros Hp.
  cbn [stat_rev]. rewrite stat_rev_insert_longer.
  - rewrite Hp. by rewrite lookup_insert_eq.
  - simpl. rewrite length_app, length_rev. simpl. lia.
Qed.

Ltac mkdir_unchanged :=
  split; [apply only_dirs_added_above_refl|by eauto].

Lemma Path_mkdir_here_spec r rns w res w' :
  Path_mkdir_here (MkPath r (rev rns)) w = (res, w') →
  mkdir_post (MkPath r (rev rns)) res w w'.
Proof.
  unfold Path_mkdir_here, try_except.
  destruct (os_mkdir_spec (MkPath r (rev rns)) w)
    as [[e ->]|(Hn & Hne & Hp & ->)].
  - destruct e; run; try (intros [= <- <-]; mkdir_unchanged).
    all: destruct (stat (fs w) _) as [?|[|?]] eqn:Hs; intros [= <- <-];
      mkdir_unchanged.
  - intros [= <- <-]. split; [by apply only_dirs_added_above_one|].
    simpl. destruct rns as [|n up]; [done|]. by apply stat_made.
Qed.

Lemma Path_mkdir_rev_spec r rns w res w' :
  Path_mkdir_rev r rns w = (res, w') →
  mkdir_post (MkPath r (rev rns)) res w w'.
Proof.
  revert w res w'. induction rns as [|n up IH]; intros w res w'.
  - cbn [Path_mkdir_rev]. unfold try_except.
    destruct (os_mkdir_spec (MkPath r (rev [])) w)
      as [[e ->]|(_ & Hne & _)]; [|done].
    destruct e; run; intros [= <- <-]; mkdir_unchanged.
  - cbn [Path_mkdir_rev]. unfold try_except at 1.
    destruct (os_mkdir_spec (MkPath r (rev (n :: up))) w)
      as [[e ->]|(Hn & Hne & Hp & ->)].
    + destruct e.
      * unfold bind. destruct (Path_mkdir_rev r up w) as [[[]|e] w1] eqn:Hup.
        -- intros Hh. apply IH in Hup as [Hd1 _].
           apply Path_mkdir_here_spec in Hh as [Hd2 Hr].
           split; [|done].
           eapply only_dirs_added_above_trans; [|done].
           eapply only_dirs_added_above_mono; [apply above_parent|done].
        -- intros [= <- <-]. apply IH in Hup as [Hd1 Hr]. split; [|done].
           eapply only_dirs_added_above_mono; [apply above_parent|done].
      * run. destruct (stat (fs w) _) as [?|[|?]] eqn:Hs; intros [= <- <-];
          mkdir_unchanged.
      * run. destruct (stat (fs w) _) as [?|[|?]] eqn:Hs; intros [= <- <-];
          mkdir_unchanged.
      * run. destruct (stat (fs w) _) as [?|[|?]] eqn:Hs; intros [= <- <-];
          mkdir_unchanged.
    + intros [= <- <-]. split; [by apply only_dirs_added_above_one|].
      by apply stat_made.
Qed.

Lemma Path_mkdir_spec p w res w' :
  Path_mkdir p w = (res, w') → mkdir_post p res w w'.
Proof.
  unfold Path_mkdir. intros H%Path_mkdir_rev_spec.
  rewrite rev_involutive in H. by destruct p.
Qed.

(** ** Reading the history *)

Lemma saves_app h1 h2 : saves (h1 ++ h2) = saves h1 ++ saves h2.
Proof.
  induction h1 as [|[] h1 IH]; simpl; [done|..]; by rewrite ?IH.
Qed.

Lemma stdout_app h1 h2 : stdout (h1 ++ h2) = stdout h1 ++ stdout h2.
Proof.
  induction h1 as [|[] h1 IH]; simpl; [done|..]; by rewrite ?IH.
Qed.

Lemma rasterizer_calls_app h1 h2 :
  rasterizer_calls (h1 ++ h2) = rasterizer_calls h1 ++ rasterizer_calls h2.
Proof.
  induction h1 as [|[] h1 IH]; simpl; [done|..]; by rewrite ?IH.
Qed.

Lemma history_of_dirs (made : list Path) :
  saves (image := image) (map MadeDir made) = [] ∧
  stdout (image := image) (map MadeDir made) = [] ∧
  rasterizer_calls (image := image) (map MadeDir made) = [].
Proof. induction made; simpl; [done|]. done. Qed.

Lemma only_dirs_added_history w w' :
  only_dirs_added w w' →
  saves (history w') = saves (history w) ∧
  stdout (history w') = stdout (history w) ∧
  rasterizer_calls (history w') = rasterizer_calls (history w).
Proof.
  intros (made & -> & _).
  destruct (history_of_dirs made) as (Hs & Ho & Hr).
  by rewrite saves_app, stdout_app, rasterizer_calls_app, Hs, Ho, Hr,
    !app_nil_r.
Qed.

Lemma only_dirs_added_lookup w w' q :
  only_dirs_added w w' →
  fs w' !! q = fs w !! q ∨ (fs w !! q = None ∧ fs w' !! q = Some Dir).
Proof.
  intros (made & _ & H). destruct (H q) as [Hi Ho].
  destruct (decide (q ∈ made)); [right; by apply Hi|left; by apply Ho].
Qed.

Lemma only_dirs_added_keeps w w' q x :
  only_dirs_added w w' → fs w !! q = Some x → fs w' !! q = Some x.
Proof.
  intros H Hq. destruct (only_dirs_added_lookup w w' q H) as [->|[? _]];
    congruence.
Qed.

(** ** The loop body *)

Lemma ensure_parent_present p w nd :
  stat (fs w) (Path_parent p) = inr nd → ensure_parent p w = (Ok tt, w).
Proof. intros H. unfold ensure_parent, Path_exists; run. by rewrite H. Qed.

Lemma ensure_parent_missing p w e :
  stat (fs w) (Path_parent p) = inl e →
  ensure_parent p w = Path_mkdir (Path_parent p) w.
Proof. intros H. unfold ensure_parent, Path_exists; run. by rewrite H. Qed.

Lemma ensure_parent_spec p w r w' :
  ensure_parent p w = (r, w') →
  only_dirs_added_above (Path_parent p) w w' ∧
  match r with
  | Ok _ => ∃ nd, stat (fs w') (Path_parent p) = inr nd ∧
                  (stat (fs w) (Path_parent p) = inr nd ∧ w' = w ∨
                   (∃ e, stat (fs w) (Path_parent p) = inl e) ∧ nd = Dir)
  | Raise e => (∃ en f, e = OSError en f) ∧
               ∃ e', stat (fs w) (Path_parent p) = inl e'
  end.
Proof.
  destruct (stat (fs w) (Path_parent p)) as [e|nd] eqn:Hs.
  - rewrite (ensure_parent_missing _ _ _ Hs).
    intros [Hd Hr]%Path_mkdir_spec. split; [done|].
    destruct r; [|by eauto]. exists Dir. split; [done|]. right. by eauto.
  - rewrite (ensure_parent_present _ _ _ Hs). intros [= <- <-].
    split; [apply only_dirs_added_above_refl|]. exists nd. rewrite Hs.
    by eauto.
Qed.

Lemma Image_save_spec img filename fmt w :
  let p := Path_of filename in
  (∃ e, Image_save img filename fmt w = (Raise (OSError e filename), w)) ∨
  (stat (fs w) (Path_parent p) = inr Dir ∧ fs w !! p ≠ Some Dir ∧
   Image_save img filename fmt w =
     (Ok tt, {| fs := <[p := File (Encoded fmt img)]> (fs w);
                history := history w ++ [Saved p fmt img] |})).
Proof.
  intros p. unfold Image_save. fold p. destruct (names p) eqn:En; [by eauto|].
  destruct (stat _ _) as [e|[|d]]; [by eauto| |by eauto].
  destruct (fs w !! p) as [[|d]|] eqn:El; [by eauto|right..];
    rewrite ?El; done.
Qed.

(** One turn of the loop: the parent directories come first, then the
    file, then its confirmation; a failure stops the turn where it
    happens. *)
Lemma write_output_spec first_page out w r w' :
  wf_path out.1 →
  write_output first_page out w = (r, w') →
  ∃ r1 w1,
    ensure_parent out.1 w = (r1, w1) ∧
    only_dirs_added_above (Path_parent out.1) w w1 ∧
    match r with
    | Ok _ =>
        r1 = Ok tt ∧ stat (fs w1) (Path_parent out.1) = inr Dir ∧
        fs w1 !! out.1 ≠ Some Dir ∧ w' = after_write first_page out w1
    | Raise e => w' = w1 ∧ ∃ en f, e = OSError en f
    end.
Proof.
  destruct out as [p fmt]; simpl. intros Hwf. unfold write_output.
  unfold bind at 1. destruct (ensure_parent p w) as [[[]|e] w1] eqn:He.
  - intros Hrun. pose proof (ensure_parent_spec _ _ _ _ He) as [Hd _].
    exists (Ok tt), w1. split; [done|]. split; [done|].
    revert Hrun. unfold bind.
    destruct (Image_save_spec first_page (Path_str p) fmt w1)
      as [[e ->]|(Hs & Hl & ->)]; rewrite ?(Path_of_str p Hwf) in *.
    + intros [= <- <-]. by eauto.
    + unfold print, log; simpl. intros [= <- <-]. repeat split; try done.
      unfold after_write; simpl. by rewrite <- app_assoc.
  - intros [= <- <-].
    pose proof (ensure_parent_spec _ _ _ _ He) as [Hd [Hr _]].
    exists (Raise e), w1. by eauto.
Qed.

(** ** The loop *)

Lemma each_save_confirmed_dirs made h :
  each_save_confirmed h → each_save_confirmed (map MadeDir made ++ h).
Proof. intros Hh. induction made; simpl; [done|]. by constructor. Qed.

Lemma each_save_confirmed_stdout h :
  each_save_confirmed h →
  stdout h = map (λ s, confirmation s.1.2 s.1.1) (saves h).
Proof. induction 1; simpl; by rewrite ?IHeach_save_confirmed. Qed.

Lemma loop_post_nil first_page w w' :
  only_dirs_added w w' → loop_post first_page [] w w'.
Proof.
  intros Hd. destruct (only_dirs_added_history _ _ Hd) as (Hs & Ho & Hr).
  split; simpl; rewrite ?app_nil_r; try done.
  - destruct Hd as (made & Hh & _). exists (map MadeDir made).
    split; [done|]. rewrite <- (app_nil_r (map _ _)).
    apply each_save_confirmed_dirs. constructor.
  - intros q. destruct (only_dirs_added_lookup _ _ q Hd); tauto.
  - by intros out ?%elem_of_nil.
  - by intros out [|??].
Qed.

Lemma loop_post_cons first_page out done w w1 w' :
  only_dirs_added w w1 →
  loop_post first_page done (after_write first_page out w1) w' →
  loop_post first_page (out :: done) w w'.
Proof.
  intros Hd [(evs & Hev & Hconf) Hs Ho Hr Hfs Hw Hl].
  destruct (only_dirs_added_history _ _ Hd) as (Hs1 & Ho1 & Hr1).
  unfold after_write in *; simpl in *.
  rewrite saves_app in Hs. rewrite stdout_app in Ho.
  rewrite rasterizer_calls_app in Hr. simpl in *.
  assert (∀ q, q = out.1 ∧
            (fs w' !! q = Some (File (Encoded out.2 first_page)) ∨
             ∃ fmt, (q, fmt) ∈ done ∧
                    fs w' !! q = Some (File (Encoded fmt first_page))) ∨
          q ≠ out.1 ∧
            (fs w' !! q = fs w1 !! q ∨
             fs w1 !! q = None ∧ fs w' !! q = Some Dir ∨
             ∃ fmt, (q, fmt) ∈ done ∧
                    fs w' !! q = Some (File (Encoded fmt first_page))))
    as Hcase.
  { intros q. destruct (decide (q = out.1)) as [->|Hne].
    - left. split; [done|].
      destruct (Hfs out.1) as [H|[[H _]|H]];
        rewrite ?lookup_insert_eq in H; [by left|done|by right].
    - right. split; [done|].
      destruct (Hfs q) as [H|[[H ?]|H]];
        rewrite ?lookup_insert_ne in H by done; eauto. }
  split; simpl.
  - destruct Hd as (made & Hh & _).
    exists (map MadeDir made ++
            Saved out.1 out.2 first_page ::
            Printed (confirmation out.2 out.1) :: evs).
    split.
    + rewrite Hev, Hh, <- !app_assoc. done.
    + apply each_save_confirmed_dirs. by constructor.
  - rewrite Hs, Hs1, <- app_assoc. done.
  - rewrite Ho, Ho1, <- app_assoc. done.
  - rewrite Hr, Hr1, app_nil_r. done.
  - intros q. destruct (Hcase q) as [[-> H]|[Hne H]].
    + right; right. destruct H as [H|(fmt & Hin & H)].
      * exists out.2. split; [|done]. destruct out; simpl. by left.
      * exists fmt. split; [by right|done].
    + destruct H as [H|[[H1 H2]|(fmt & Hin & H)]].
      * rewrite H. destruct (only_dirs_added_lookup _ _ q Hd); tauto.
      * right; left. split; [|done].
        destruct (only_dirs_added_lookup _ _ q Hd) as [<-|[? ?]]; congruence.
      * right; right. exists fmt. split; [by right|done].
  - intros o [->|Hin]%elem_of_cons.
    + destruct (Hcase out.1) as [[_ H]|[Hne _]]; [|done].
      destruct H as [H|(fmt & Hin & H)].
      * exists out.2. split; [|done]. destruct out; simpl. by left.
      * exists fmt. split; [by right|done].
    + destruct (Hw o Hin) as (fmt & Hin' & H).
      exists fmt. split; [by right|done].
  - intros o done' Heq. destruct done' as [|o' done'']; simplify_eq/=.
    + destruct (Hcase o.1) as [[_ H]|[Hne _]]; [|done].
      destruct H as [H|(fmt & Hin & _)]; [done|]. by apply elem_of_nil in Hin.
    + by eapply Hl.
Qed.

Lemma for_each_spec first_page outs w r w' :
  Forall (λ out, wf_path out.1) outs →
  for_each outs (write_output first_page) w = (r, w') →
  ∃ done,
    loop_post first_page done w w' ∧
    match r with
    | Ok _ => done = outs
    | Raise e =>
        (∃ en f, e = OSError en f) ∧
        ∃ out rest w1,
          outs = done ++ out :: rest ∧
          for_each done (write_output first_page) w = (Ok tt, w1) ∧
          write_output first_page out w1 = (Raise e, w')
    end.
Proof.
  intros Hwf. revert w. induction Hwf as [|out outs Hout _ IH]; intros w.
  - intros [= <- <-]. exists []. split; [|done].
    apply loop_post_nil, only_dirs_added_refl.
  - cbn [for_each]. unfold bind at 1.
    destruct (write_output first_page out w) as [[[]|e] w1] eqn:Hstep.
    + intros Hrest.
      destruct (write_output_spec _ _ _ _ _ Hout Hstep)
        as (r1 & w0 & _ & Hd%only_dirs_added_above_weaken & _ & _ & _ & ->).
      destruct (IH _ Hrest) as (done & Hpost & Hr).
      exists (out :: done). split; [by eapply loop_post_cons|].
      destruct r as [[]|e]; [by subst|].
      destruct Hr as (He & out' & rest & w2 & -> & Hdone & Hfail).
      split; [done|]. exists out', rest, w2. split; [done|]. split; [|done].
      cbn [for_each]. unfold bind at 1. by rewrite Hstep.
    + intros [= <- <-].
      destruct (write_output_spec _ _ _ _ _ Hout Hstep)
        as (r1 & w0 & _ & Hd%only_dirs_added_above_weaken & -> & He).
      exists []. split; [by apply loop_post_nil|].
      split; [done|]. by exists out, outs, w.
Qed.

(** ** The script, check by check *)

Lemma main_run conv args w :
  main conv args w =
  match stat (fs w) (Path_of (input args)) with
  | inl _ =>
      (Raise (SystemExit
                ("PDF not found: " +:+ Path_str (Path_of (input args)))), w)
  | inr _ =>
      match build_outputs args with
      | [] =>
          (Raise (SystemExit "Specify at least --png or --jpg output path."),
           w)
      | outputs =>
          match conv (Path_str (Path_of (input args))) (dpi args) (fs w) with
          | Raise e => (Raise e, rasterizing args w)
          | Ok [] =>
              (Raise (SystemExit "No pages rendered from PDF."),
               rasterizing args w)
          | Ok (first_page :: _) =>
              for_each outputs (write_output first_page) (rasterizing args w)
          end
      end
  end.
Proof.
  unfold main, Path_exists, call_rasterizer; run.
  destruct (stat _ _); [done|]; simpl.
  destruct (build_outputs args); [done|].
  unfold rasterizing. by destruct (conv _ _ _) as [[|? ?]|?].
Qed.

Lemma build_outputs_wf args : Forall (λ out, wf_path out.1) (build_outputs args).
Proof.
  unfold build_outputs.
  destruct (truthy (png args)), (truthy (jpg args)); simpl;
    repeat (apply Forall_cons_2; [apply Path_of_wf|]); apply Forall_nil_2.
Qed.

(** ** Claims *)

Lemma main_missing_input conv args w :
  input_exists args w = false →
  main conv args w =
  (Raise (SystemExit ("PDF not found: " +:+ Path_str (Path_of (input args)))),
   w).
Proof.
  unfold input_exists. rewrite main_run. by destruct (stat _ _).
Qed.

Lemma main_no_outputs conv args w :
  input_exists args w = true → build_outputs args = [] →
  main conv args w =
  (Raise (SystemExit "Specify at least --png or --jpg output path."), w).
Proof.
  unfold input_exists. rewrite main_run. destruct (stat _ _); [done|].
  by intros _ ->.
Qed.

Lemma main_no_pages conv args w :
  input_exists args w = true → build_outputs args ≠ [] →
  pages_of conv args w = Ok [] →
  main conv args w =
  (Raise (SystemExit "No pages rendered from PDF."), rasterizing args w).
Proof.
  unfold input_exists, pages_of. rewrite main_run.
  destruct (stat _ _); [done|]. intros _ Hne ->.
  by destruct (build_outputs args).
Qed.

Lemma main_rasterizer_raised conv args w e :
  input_exists args w = true → build_outputs args ≠ [] →
  pages_of conv args w = Raise e →
  main conv args w = (Raise e, rasterizing args w).
Proof.
  unfold input_exists, pages_of. rewrite main_run.
  destruct (stat _ _); [done|]. intros _ Hne ->.
  by destruct (build_outputs args).
Qed.

Lemma main_loop conv args w first_page rest :
  input_exists args w = true → build_outputs args ≠ [] →
  pages_of conv args w = Ok (first_page :: rest) →
  main conv args w =
  for_each (build_outputs args) (write_output first_page) (rasterizing args w).
Proof.
  unfold input_exists, pages_of. rewrite main_run.
  destruct (stat _ _); [done|]. intros _ Hne ->.
  by destruct (build_outputs args).
Qed.

Lemma build_outputs_nil args :
  build_outputs args = [] ↔
  truthy (png args) = false ∧ truthy (jpg args) = false.
Proof.
  unfold build_outputs.
  destruct (truthy (png args)), (truthy (jpg args)); simpl; split;
    (done || by intros []).
Qed.

Lemma main_cases conv args w r w' :
  main conv args w = (r, w') → main_outcome conv args w r w'.
Proof.
  destruct (input_exists args w) eqn:Hin.
  2:{ rewrite main_missing_input by done. intros [= <- <-].
      eapply rejected; eauto. }
  destruct (build_outputs args) as [|out outs] eqn:Hout.
  { rewrite main_no_outputs by done. intros [= <- <-].
    eapply rejected; eauto. }
  assert (build_outputs args ≠ []) as Hne by by rewrite Hout.
  destruct (pages_of conv args w) as [[|first_page rest]|e] eqn:Hp.
  - rewrite main_no_pages by done. intros [= <- <-].
    by eapply nothing_rendered.
  - rewrite (main_loop _ _ _ _ _ Hin Hne Hp). intros Hloop.
    apply for_each_spec in Hloop as (done & Hpost & Hr);
      [|apply build_outputs_wf].
    eapply looped; eauto.
  - rewrite (main_rasterizer_raised _ _ _ _ Hin Hne Hp). intros [= <- <-].
    by eapply rasterizer_raised.
Qed.

Lemma rasterizing_history args w :
  saves (history (rasterizing args w)) = saves (history w) ∧
  stdout (history (rasterizing args w)) = stdout (history w).
Proof. simpl. by rewrite saves_app, stdout_app, !app_nil_r. Qed.

(** ** When directories can be made *)




Lemma main_rejects conv args w :
  build_outputs args = [] →
  ∃ msg, main conv args w = (Raise (SystemExit msg), w) ∧
         (input_exists args w = true →
            msg = "Specify at least --png or --jpg output path.").
Proof.
  intros Hout. destruct (input_exists args w) eqn:Hin.
  - exists "Specify at least --png or --jpg output path.".
    by rewrite main_no_outputs.
  - exists ("PDF not found: " +:+ Path_str (Path_of (input args))).
    by rewrite main_missing_input.
Qed.

(** C3. When the input path does not exist the run ends with the
    message [PDF not found: <path>] and exit status 1, nothing in the
    world has changed, and the rasterizer was not called: no call is on
    record and the run is the same whatever the rasterizer is. *)
Theorem missing_input_aborts_before_conversion
    (conv : rasterizer image) args w :
  input_exists args w = false →
  let msg := "PDF not found: " +:+ Path_str (Path_of (input args)) in
  main conv args w = (Raise (SystemExit msg), w) ∧
  user_error (main conv args w).1 = Some msg ∧
  exit_status (main conv args w).1 = 1%Z ∧
  rasterizer_calls (history (main conv args w).2)
    = rasterizer_calls (history w) ∧
  ∀ conv' : rasterizer image, main conv' args w = main conv args w.
Proof.
  intros Hin msg. rewrite (main_missing_input conv args w Hin).
  repeat split. intros conv'. by rewrite main_missing_input.
Qed.

(** C4. When neither [--png] nor [--jpg] holds a path (the option is
    absent, or present with an empty value), the run ends with a
    [SystemExit] message and exit status 1; the message is
    [Specify at least --png or --jpg output path.] as soon as the input
    exists.  Nothing in the world has changed and the rasterizer was not
    called. *)
Theorem no_output_aborts_before_conversion
    (conv : rasterizer image) args w :
  truthy (png args) = false → truthy (jpg args) = false →
  ∃ msg,
    main conv args w = (Raise (SystemExit msg), w) ∧
    (input_exists args w = true →
       msg = "Specify at least --png or --jpg output path.") ∧
    user_error (main conv args w).1 = Some msg ∧
    exit_status (main conv args w).1 = 1%Z ∧
    rasterizer_calls (history (main conv args w).2)
      = rasterizer_calls (history w) ∧
    ∀ conv' : rasterizer image, main conv' args w = main conv args w.
Proof.
  intros Hp Hj.
  assert (build_outputs args = []) as Hout by by apply build_outputs_nil.
  destruct (input_exists args w) eqn:Hin.
  - exists "Specify at least --png or --jpg output path.".
    rewrite (main_no_outputs conv args w Hin Hout). repeat split.
    intros conv'. by rewrite main_no_outputs.
  - exists ("PDF not found: " +:+ Path_str (Path_of (input args))).
    rewrite (main_missing_input conv args w Hin). repeat split; [done|].
    intros conv'. by rewrite main_missing_input.
Qed.

(** C5. When the rasterizer answers with an empty list of pages, the run
    ends with a [SystemExit] message and exit status 1, and no file was
    written: the file system is the one the run started with and no save
    is on record.  When the rasterizer was reached (the input exists and
    an output was requested) the message is
    [No pages rendered from PDF.]. *)
Theorem no_pages_aborts_without_output (conv : rasterizer image) args w :
  pages_of conv args w = Ok [] →
  (∃ msg, user_error (main conv args w).1 = Some msg) ∧
  exit_status (main conv args w).1 = 1%Z ∧
  fs (main conv args w).2 = fs w ∧
  saves (history (main conv args w).2) = saves (history w) ∧
  (input_exists args w = true → build_outputs args ≠ [] →
     main conv args w =
     (Raise (SystemExit "No pages rendered from PDF."), rasterizing args w)).
Proof.
  intros Hpages.
  destruct (input_exists args w) eqn:Hin.
  - destruct (build_outputs args) as [|out outs] eqn:Hout.
    + rewrite (main_no_outputs conv args w Hin Hout); simpl.
      split; [by eauto|]. repeat split. by intros _ [].
    + assert (build_outputs args ≠ []) as Hne by by rewrite Hout.
      rewrite (main_no_pages conv args w Hin Hne Hpages); simpl.
      rewrite saves_app, app_nil_r. split; [by eauto|]. by repeat split.
  - rewrite (main_missing_input conv args w Hin); simpl.
    split; [by eauto|]. by repeat split.
Qed.

(** C1. A failed validation check (the input does not exist, no output
    holds a path, the rasterizer returns no page) ends the run with a
    [SystemExit] before anything is written: the file system is untouched
    and neither a save nor a line is on record.  When the checks pass and
    the run still ends with an exception, the loop stopped at one output:
    the outputs before it were written and confirmed, and their files are
    there when the run ends. *)
Theorem validation_failure_writes_nothing
    (conv : rasterizer image) args w r w' :
  main conv args w = (r, w') →
  (input_exists args w = false ∨
   (truthy (png args) = false ∧ truthy (jpg args) = false) ∨
   pages_of conv args w = Ok [] →
     (∃ msg, r = Raise (SystemExit msg)) ∧
     fs w' = fs w ∧
     saves (history w') = saves (history w) ∧
     stdout (history w') = stdout (history w)) ∧
  (∀ first_page rest e,
     input_exists args w = true → build_outputs args ≠ [] →
     pages_of conv args w = Ok (first_page :: rest) →
     r = Raise e →
     ∃ done out rest' w1,
       build_outputs args = done ++ out :: rest' ∧
       for_each done (write_output first_page) (rasterizing args w)
         = (Ok tt, w1) ∧
       write_output first_page out w1 = (Raise e, w') ∧
       saves (history w')
         = saves (history w) ++ map (record_of first_page) done ∧
       stdout (history w') = stdout (history w) ++ map line_of done ∧
       ∀ o, o ∈ done →
         ∃ fmt, (o.1, fmt) ∈ done ∧
                fs w' !! o.1 = Some (File (Encoded fmt first_page))).
Proof.
  intros Hrun. pose proof (main_cases _ _ _ _ _ Hrun) as Hcase.
  destruct (rasterizing_history args w) as [Hs Ho]. split.
  - intros Hfail. destruct Hcase as
      [msg _ -> ->|e Hin Hne Hp -> ->|Hin Hne Hp -> ->
      |first_page rest done Hin Hne Hp Hpost Hr].
    + by eauto.
    + destruct Hfail as [?|[?%build_outputs_nil|?]]; congruence.
    + by eauto 10.
    + destruct Hfail as [?|[?%build_outputs_nil|?]]; congruence.
  - intros first_page rest e Hin Hne Hp ->. destruct Hcase as
      [msg [?|?] _ _|e' _ _ Hp' _ _|_ _ Hp' _ _
      |first_page' rest' done _ _ Hp' Hpost Hr]; try congruence.
    assert (first_page' = first_page) as -> by congruence.
    destruct Hr as (_ & out & rest'' & w1 & Hout & Hdone & Hfail).
    exists done, out, rest'', w1. destruct Hpost. rewrite <- Hs, <- Ho.
    by repeat split.
Qed.

(** C2. When the rasterizer returns the pages [first_page :: rest], every
    save of the run stores [first_page] at a requested output, in the
    order requested.  At every path spelled without [..], what the file
    system holds after the run is what it held before, or a new
    directory, or a file holding [first_page].  A run that returns leaves
    [first_page] at every requested output.  The other pages play no
    part: the run is the same for any rasterizer that returns the same
    first page. *)
Theorem only_first_page_is_written
    (conv : rasterizer image) args w first_page rest r w' :
  pages_of conv args w = Ok (first_page :: rest) →
  main conv args w = (r, w') →
  (∃ written,
     written `prefix_of` build_outputs args ∧
     (r = Ok tt → written = build_outputs args) ∧
     saves (history w')
       = saves (history w) ++ map (record_of first_page) written) ∧
  (∀ q, plain q = true →
        fs w' !! q = fs w !! q ∨
        (fs w !! q = None ∧ fs w' !! q = Some Dir) ∨
        ∃ fmt, fs w' !! q = Some (File (Encoded fmt first_page))) ∧
  (r = Ok tt →
     ∀ out, out ∈ build_outputs args →
       ∃ fmt, fs w' !! out.1 = Some (File (Encoded fmt first_page))) ∧
  (∀ (conv' : rasterizer image) rest',
     pages_of conv' args w = Ok (first_page :: rest') →
     main conv' args w = (r, w')).
Proof.
  intros Hp Hrun. pose proof (main_cases _ _ _ _ _ Hrun) as Hcase.
  destruct (rasterizing_history args w) as [Hs Ho].
  split; [|split; [|split]].
  - destruct Hcase as
      [msg _ -> ->|e _ _ Hp' -> ->|_ _ Hp' -> ->
      |first_page' rest' done _ _ Hp' Hpost Hr]; try congruence.
    + exists []. split; [apply prefix_nil|]. split; [done|].
      by rewrite app_nil_r.
    + assert (first_page' = first_page) as -> by congruence.
      exists done. destruct Hpost. rewrite <- Hs. split; [|split; [|done]].
      * destruct r as [[]|e]; [by subst|].
        destruct Hr as (_ & out & rest'' & w1 & -> & _). by apply prefix_app_r.
      * intros ->. done.
  - intros q _. destruct Hcase as
      [msg _ -> ->|e _ _ Hp' -> ->|_ _ Hp' -> ->
      |first_page' rest' done _ _ Hp' Hpost Hr]; try congruence; auto.
    assert (first_page' = first_page) as -> by congruence.
    destruct (loop_fs _ _ _ _ Hpost q) as [H|[H|(fmt & Hin & H)]]; auto.
    right; right. by exists fmt.
  - intros -> out Hin. destruct Hcase as
      [msg _ ? _|e _ _ _ ? _|_ _ _ ? _
      |first_page' rest' done _ _ Hp' Hpost Hr]; try discriminate.
    assert (first_page' = first_page) as -> by congruence. subst done.
    destruct (loop_written _ _ _ _ Hpost out Hin) as (fmt & _ & H).
    by eauto.
  - intros conv' rest' Hp'. rewrite <- Hrun. rewrite !main_run.
    unfold pages_of in *. by rewrite Hp, Hp'.
Qed.


Lemma build_outputs_last_jpg args s :
  jpg args = Some s → s ≠ "" →
  ∃ front, build_outputs args = front ++ [(Path_of s, "JPEG")] ∧
           Forall (λ out, out.2 = "PNG") front.
Proof.
  intros Hj Hs. unfold build_outputs.
  assert (truthy (jpg args) = true) as ->.
  { rewrite Hj. simpl. by apply negb_true_iff, String.eqb_neq. }
  rewrite Hj. cbn [arg_value default].
  destruct (truthy (png args)).
  - exists [(Path_of (arg_value (png args)), "PNG")].
    split; [done|]. by repeat constructor.
  - exists []. split; [done|constructor].
Qed.

(** The events a run adds to the history. *)
Lemma main_events conv args w r w' :
  main conv args w = (r, w') →
  ∃ evs done,
    history w' = history w ++ evs ∧
    each_save_confirmed evs ∧
    done `prefix_of` build_outputs args ∧
    (r = Ok tt → done = build_outputs args ∧ done ≠ []) ∧
    stdout evs = map line_of done ∧
    ∀ first_page rest, pages_of conv args w = Ok (first_page :: rest) →
      saves evs = map (record_of first_page) done.
Proof.
  intros Hrun. destruct (main_cases _ _ _ _ _ Hrun) as
    [msg _ -> ->|e _ _ Hp -> ->|_ _ Hp -> ->
    |first_page rest done _ Hne Hp Hpost Hr].
  - exists [], []. rewrite app_nil_r.
    repeat split; try done; try constructor; apply prefix_nil.
  - eexists [_], []. split; [done|].
    repeat split; try done; try (repeat constructor); apply prefix_nil.
  - eexists [_], []. split; [done|].
    repeat split; try done; try (repeat constructor); apply prefix_nil.
  - destruct Hpost as [(evs & Hev & Hconf) Hs Ho _ _ _ _].
    exists (Rasterized (Path_str (Path_of (input args))) (dpi args) :: evs),
      done.
    rewrite Hev, saves_app in Hs. rewrite Hev, stdout_app in Ho.
    apply app_inv_head in Hs, Ho.
    split; [by rewrite Hev; simpl; rewrite <- app_assoc|].
    split; [by constructor|].
    split. { destruct r as [[]|e]; [by subst|].
             destruct Hr as (_ & out & rest' & w1 & -> & _).
             by apply prefix_app_r. }
    split. { intros ->. simpl in Hr. rewrite Hr. by split. }
    split; [done|].
    intros first_page' rest' Hp'.
    assert (first_page' = first_page) as -> by congruence. exact Hs.
Qed.

(** C8. The events a run adds to the history pair every save with the
    line printed for it: a save is followed at once by
    [Generated <FORMAT> image at <path>] for its own format tag and path,
    and nothing else is printed; so the lines on standard output are, in
    order, the confirmations of the files written.  With
    [--png out.png], as soon as anything was saved (and so in every run
    that returns) the first save is the PNG at [out.png] and the first
    line printed is [Generated PNG image at out.png]. *)
Theorem each_written_file_is_confirmed
    (conv : rasterizer image) args w r w' :
  main conv args w = (r, w') →
  ∃ evs,
    history w' = history w ++ evs ∧
    each_save_confirmed evs ∧
    stdout evs =
      map (λ s, "Generated " +:+ s.1.2 +:+ " image at " +:+ Path_str s.1.1)
          (saves evs) ∧
    (png args = Some "out.png" → r = Ok tt ∨ saves evs ≠ [] →
       (∃ img, head (saves evs) = Some (Path_of "out.png", "PNG", img)) ∧
       head (stdout evs) = Some "Generated PNG image at out.png").
Proof.
  intros Hrun.
  destruct (main_events _ _ _ _ _ Hrun)
    as (evs & fin & Hh & Hconf & Hpre & Hok & Hout & Hsaves).
  pose proof (each_save_confirmed_stdout _ Hconf) as Hlines.
  exists evs. split; [done|]. split; [done|]. split; [done|].
  intros Hpng Hgo.
  assert (∃ rest', fin = (Path_of "out.png", "PNG") :: rest') as [rest' ->].
  { assert (∃ outs, build_outputs args = (Path_of "out.png", "PNG") :: outs)
      as [outs Houts].
    { unfold build_outputs. rewrite Hpng.
      destruct (truthy (jpg args)); simpl; by eauto. }
    destruct fin as [|out fin'].
    - exfalso. destruct Hgo as [Hr|Hne].
      + destruct (Hok Hr) as [_ ?]. done.
      + apply Hne. simpl in Hout. rewrite Hout in Hlines.
        by destruct (saves evs).
    - rewrite Houts in Hpre. destruct Hpre as [k Hk].
      injection Hk as <- _. by eauto. }
  split; [|by rewrite Hout].
  rewrite Hout in Hlines. destruct (saves evs) as [|[[q fmt] img] more];
    [done|].
  exists img. simpl in Hlines. injection Hlines as Hline _.
  destruct (main_cases _ _ _ _ _ Hrun) as
    [msg _ -> ->|e _ _ Hp -> ->|_ _ Hp -> ->
    |first_page rest fin' _ _ Hp Hpost Hr].
  - assert (evs = []) as -> by (by apply (app_inv_head (history w));
      rewrite app_nil_r). done.
  - apply (app_inv_head (history w)) in Hh. by subst evs.
  - apply (app_inv_head (history w)) in Hh. by subst evs.
  - pose proof (Hsaves _ _ Hp) as Hs. by injection Hs as -> -> -> _.
Qed.

(** C9. An output option with an empty value is the option left out: it
    adds nothing to the list of outputs, and the run is the run without
    the option.  When no other output holds a path, the list of outputs
    is empty and the run ends with a [SystemExit] and the world as it
    was, so no file is produced; the message is
    [Specify at least --png or --jpg output path.] as soon as the input
    exists. *)
Theorem empty_output_value_counts_as_absent
    (conv : rasterizer image) inp other d w :
  build_outputs (MkNamespace inp (Some "") other d)
    = build_outputs (MkNamespace inp None other d) ∧
  build_outputs (MkNamespace inp other (Some "") d)
    = build_outputs (MkNamespace inp other None d) ∧
  main conv (MkNamespace inp (Some "") other d) w
    = main conv (MkNamespace inp None other d) w ∧
  main conv (MkNamespace inp other (Some "") d) w
    = main conv (MkNamespace inp other None d) w ∧
  ∀ args,
    (png args = Some "" ∧ jpg args = None) ∨
    (png args = None ∧ jpg args = Some "") ∨
    (png args = Some "" ∧ jpg args = Some "") →
    build_outputs args = [] ∧
    ∃ msg,
      main conv args w = (Raise (SystemExit msg), w) ∧
      (input_exists args w = true →
         msg = "Specify at least --png or --jpg output path.").
Proof.
  split; [done|]. split; [done|].
  split; [by rewrite !main_run|]. split; [by rewrite !main_run|].
  intros args Hempty.
  assert (build_outputs args = []) as Hnil.
  { apply build_outputs_nil.
    destruct Hempty as [[-> ->]|[[-> ->]|[-> ->]]]; by split. }
  split; [done|]. by apply main_rejects.
Qed.

(** C10. The output requested with [--jpg] carries the format tag
    [JPEG]: it is the last entry of the list of outputs, no entry is
    tagged [JPG], no save carries that tag either, and a run that
    returns has saved the first page last under the tag [JPEG], left a
    JPEG-encoded file at the path, and printed
    [Generated JPEG image at <path>] last.  With [--jpg out.jpg] the line
    is [Generated JPEG image at out.jpg]. *)
Theorem jpg_output_is_tagged_JPEG
    (conv : rasterizer image) args w s r w' :
  jpg args = Some s → s ≠ "" →
  main conv args w = (r, w') →
  last (build_outputs args) = Some (Path_of s, "JPEG") ∧
  (∀ out, out ∈ build_outputs args → out.2 ≠ "JPG") ∧
  ∃ evs,
    history w' = history w ++ evs ∧
    (∀ q fmt img, (q, fmt, img) ∈ saves evs → fmt ≠ "JPG") ∧
    (r = Ok tt →
       (∃ first_page,
          last (saves evs) = Some (Path_of s, "JPEG", first_page) ∧
          fs w' !! Path_of s = Some (File (Encoded "JPEG" first_page))) ∧
       last (stdout evs)
         = Some ("Generated JPEG image at " +:+ Path_str (Path_of s)) ∧
       (s = "out.jpg" →
          last (stdout evs) = Some "Generated JPEG image at out.jpg")).
Proof.
  intros Hj Hs Hrun.
  destruct (build_outputs_last_jpg args s Hj Hs) as (front & Hout & Hfront).
  assert (∀ out, out ∈ build_outputs args → out.2 ≠ "JPG") as Htags.
  { intros out. rewrite Hout, elem_of_app, list_elem_of_singleton.
    intros [Hin| ->]; [|done].
    rewrite Forall_forall in Hfront. by rewrite (Hfront _ Hin). }
  split; [by rewrite Hout, last_snoc|]. split; [done|].
  destruct (main_events _ _ _ _ _ Hrun)
    as (evs & fin & Hh & Hconf & Hpre & Hok & Hlines & Hsaves).
  exists evs. split; [done|]. split.
  - intros q fmt img Hin.
    destruct (main_cases _ _ _ _ _ Hrun) as
      [msg _ -> ->|e _ _ Hp -> ->|_ _ Hp -> ->
      |first_page rest fin' _ _ Hp Hpost Hr].
    + assert (evs = []) as -> by (by apply (app_inv_head (history w));
        rewrite app_nil_r). by apply elem_of_nil in Hin.
    + apply (app_inv_head (history w)) in Hh. subst evs.
      by apply elem_of_nil in Hin.
    + apply (app_inv_head (history w)) in Hh. subst evs.
      by apply elem_of_nil in Hin.
    + rewrite (Hsaves _ _ Hp) in Hin.
      apply list_elem_of_fmap in Hin as (out & [= -> -> ->] & Hin).
      apply (Htags out). by eapply elem_of_prefix.
  - intros ->. destruct (Hok eq_refl) as [-> _].
    destruct (main_cases _ _ _ _ _ Hrun) as
      [msg _ ? _|e _ _ _ ? _|_ _ _ ? _
      |first_page rest fin' _ _ Hp Hpost Hr]; try discriminate.
    simpl in Hr. rewrite Hr in Hpost.
    assert (last (stdout evs)
            = Some ("Generated JPEG image at " +:+ Path_str (Path_of s)))
      as Hline.
    { rewrite Hlines, Hout, map_app. cbn [map]. by rewrite last_snoc. }
    split; [|split; [done|by intros ->]].
    exists first_page. split.
    + rewrite (Hsaves _ _ Hp), Hout, map_app. cbn [map].
      by rewrite last_snoc.
    + by apply (loop_last _ _ _ _ Hpost (Path_of s, "JPEG") front).
Qed.



End Properties.

(** ** Runs of the samples *)


(** A missing input: nothing but the error. *)
Lemma missing_input_witness :
  let args := Sample.args_png in
  let w := Sample.fresh ∅ in
  let conv := Sample.pages 1 in
  input_exists args w = false ∧
  main conv args w = (Raise (SystemExit "PDF not found: invoice.pdf"), w) ∧
  exit_status (main conv args w).1 = 1%Z ∧
  rasterizer_calls (history (main conv args w).2) = [].
Proof.
  intros args w conv.
  assert (input_exists args w = false) as Hin by reflexivity.
  destruct (missing_input_aborts_before_conversion conv args w Hin)
    as (Hm & _ & He & Hr & _).
  split; [exact Hin|]. split; [exact Hm|]. split; [exact He|exact Hr].
Defined.

(** No output option at all. *)
Lemma no_output_witness :
  let args := MkNamespace "invoice.pdf" None None 200 in
  let w := Sample.fresh Sample.disk in
  let conv := Sample.pages 1 in
  truthy (png args) = false ∧ truthy (jpg args) = false ∧
  main conv args w =
    (Raise (SystemExit "Specify at least --png or --jpg output path."), w) ∧
  rasterizer_calls (history (main conv args w).2) = [].
Proof.
  intros args w conv.
  destruct (no_output_aborts_before_conversion conv args w eq_refl eq_refl)
    as (msg & Hm & Hmsg & _ & _ & Hr & _).
  split; [reflexivity|]. split; [reflexivity|].
  rewrite (Hmsg eq_refl) in Hm. split; [exact Hm|exact Hr].
Defined.

(** A PDF without pages. *)
Lemma no_pages_witness :
  let args := Sample.args_png in
  let w := Sample.fresh Sample.disk in
  let conv := Sample.pages 0 in
  pages_of conv args w = Ok [] ∧
  exit_status (main conv args w).1 = 1%Z ∧
  fs (main conv args w).2 = Sample.disk ∧
  saves (history (main conv args w).2) = [] ∧
  main conv args w =
    (Raise (SystemExit "No pages rendered from PDF."), rasterizing args w).
Proof.
  intros args w conv.
  assert (pages_of conv args w = Ok []) as Hp by reflexivity.
  destruct (no_pages_aborts_without_output conv args w Hp)
    as (_ & He & Hfs & Hs & Hm).
  split; [exact Hp|]. split; [exact He|]. split; [exact Hfs|].
  split; [exact Hs|]. apply Hm; [reflexivity|discriminate].
Defined.

(** A failed check, and a failure on the second turn of the loop. *)
Lemma validation_failure_witness :
  (let args := Sample.args_png in
   let w := Sample.fresh Sample.disk in
   let conv := Sample.pages 0 in
   pages_of conv args w = Ok [] ∧
   fs (main conv args w).2 = fs w ∧
   saves (history (main conv args w).2) = [] ∧
   stdout (history (main conv args w).2) = []) ∧
  (let args := Sample.args_clash in
   let w := Sample.fresh Sample.disk in
   let conv := Sample.pages 3 in
   (main conv args w).1 = Raise (OSError ENOTDIR "out/invoice.jpg") ∧
   ∃ fin out rest' w1,
     build_outputs args = fin ++ out :: rest' ∧
     for_each fin (write_output 0) (rasterizing args w) = (Ok tt, w1) ∧
     write_output 0 out w1
       = (Raise (OSError ENOTDIR "out/invoice.jpg"), (main conv args w).2) ∧
     saves (history (main conv args w).2) = map (record_of 0) fin ∧
     stdout (history (main conv args w).2) = map line_of fin ∧
     ∀ o, o ∈ fin →
       ∃ fmt, (o.1, fmt) ∈ fin ∧
              fs (main conv args w).2 !! o.1 = Some (File (Encoded fmt 0))).
Proof.
  split.
  - intros args w conv.
    destruct (validation_failure_writes_nothing conv args w _ _
                (surjective_pairing _)) as [Hcheck _].
    assert (pages_of conv args w = Ok []) as Hp by reflexivity.
    destruct (Hcheck (or_intror (or_intror Hp))) as (_ & Hfs & Hs & Ho).
    split; [exact Hp|]. split; [exact Hfs|]. split; [exact Hs|exact Ho].
  - intros args w conv.
    destruct (validation_failure_writes_nothing conv args w _ _
                (surjective_pairing _)) as [_ Hloop].
    assert ((main conv args w).1 = Raise (OSError ENOTDIR "out/invoice.jpg"))
      as Hr by (vm_compute; reflexivity).
    split; [exact Hr|].
    apply (Hloop 0 [1; 2] _ eq_refl); [discriminate|reflexivity|exact Hr].
Defined.

(** Three pages, two outputs. *)
Lemma only_first_page_witness :
  let args := Sample.args_both in
  let w := Sample.fresh Sample.disk in
  let conv := Sample.pages 3 in
  pages_of conv args w = Ok [0; 1; 2] ∧
  (main conv args w).1 = Ok tt ∧
  saves (history (main conv args w).2)
    = [(Path_of "img/a/out.png", "PNG", 0);
       (Path_of "img/b/out.jpg", "JPEG", 0)] ∧
  (∃ fmt, fs (main conv args w).2 !! Path_of "img/b/out.jpg"
          = Some (File (Encoded fmt 0))) ∧
  main (Sample.pages 1) args w = main conv args w.
Proof.
  intros args w conv.
  assert (pages_of conv args w = Ok [0; 1; 2]) as Hp by reflexivity.
  assert ((main conv args w).1 = Ok tt) as Hr by (vm_compute; reflexivity).
  destruct (only_first_page_is_written conv args w 0 [1; 2] _ _ Hp
              (surjective_pairing _))
    as ((written & _ & Hall & Hs) & _ & Hok & Hsame).
  split; [exact Hp|]. split; [exact Hr|]. split; [|split].
  - rewrite Hs, (Hall Hr). reflexivity.
  - apply (Hok Hr (Path_of "img/b/out.jpg", "JPEG")).
    right; left.
  - rewrite (Hsame (Sample.pages 1) [] eq_refl). symmetry.
    apply surjective_pairing.
Defined.

(** [--png out.png] on a one-page invoice. *)
Lemma confirmation_witness :
  let args := Sample.args_png in
  let w := Sample.fresh Sample.disk in
  let conv := Sample.pages 1 in
  png args = Some "out.png" ∧
  (main conv args w).1 = Ok tt ∧
  ∃ evs,
    history (main conv args w).2 = history w ++ evs ∧
    each_save_confirmed evs ∧
    head (stdout evs) = Some "Generated PNG image at out.png".
Proof.
  intros args w conv.
  assert ((main conv args w).1 = Ok tt) as Hr by (vm_compute; reflexivity).
  destruct (each_written_file_is_confirmed conv args w _ _
              (surjective_pairing _)) as (evs & Hh & Hc & _ & Hline).
  destruct (Hline eq_refl (or_introl Hr)) as [_ Hfirst].
  split; [reflexivity|]. split; [exact Hr|].
  exists evs. split; [exact Hh|]. split; [exact Hc|exact Hfirst].
Defined.

(** [--png ''] as the only output option. *)
Lemma empty_output_witness :
  let args := MkNamespace "invoice.pdf" (Some "") None 200 in
  let w := Sample.fresh Sample.disk in
  let conv := Sample.pages 1 in
  input_exists args w = true ∧
  build_outputs args = [] ∧
  main conv args w =
    (Raise (SystemExit "Specify at least --png or --jpg output path."), w).
Proof.
  intros args w conv.
  destruct (empty_output_value_counts_as_absent conv "invoice.pdf" None 200 w)
    as (_ & _ & _ & _ & Hempty).
  destruct (Hempty args (or_introl (conj eq_refl eq_refl)))
    as (Hnil & msg & Hm & Hmsg).
  split; [reflexivity|]. split; [exact Hnil|].
  rewrite (Hmsg eq_refl) in Hm. exact Hm.
Defined.

(** [--jpg out.jpg] on a one-page invoice. *)
Lemma jpg_tag_witness :
  let args := Sample.args_jpg in
  let w := Sample.fresh Sample.disk in
  let conv := Sample.pages 1 in
  jpg args = Some "out.jpg" ∧
  (main conv args w).1 = Ok tt ∧
  ∃ evs,
    history (main conv args w).2 = history w ++ evs ∧
    (∃ first_page,
       fs (main conv args w).2 !! Path_of "out.jpg"
         = Some (File (Encoded "JPEG" first_page))) ∧
    last (stdout evs) = Some "Generated JPEG image at out.jpg".
Proof.
  intros args w conv.
  assert ((main conv args w).1 = Ok tt) as Hr by (vm_compute; reflexivity).
  assert ("out.jpg" ≠ "") as Hne by discriminate.
  destruct (jpg_output_is_tagged_JPEG conv args w "out.jpg" _ _ eq_refl Hne
              (surjective_pairing _)) as (_ & _ & evs & Hh & _ & Hok).
  destruct (Hok Hr) as ((first_page & _ & Hfile) & _ & Hline).
  split; [reflexivity|]. split; [exact Hr|].
  exists evs. split; [exact Hh|]. split; [by exists first_page|].
  exact (Hline eq_refl).
Defined.


(** * Further properties of the script *)

Section Further.

Context {image : Type}.

Implicit Types (w : World image) (m : gmap Path (inode image)).
Implicit Types (p q : Path) (h : list (event image)).

(** ** Consistent file systems *)

Lemma consistent_spec m :
  consistent m = true ↔
  ∀ p x, m !! p = Some x →
         names p ≠ [] ∧ stat m (Path_parent p) = inr Dir.
Proof.
  unfold consistent. rewrite forallb_forall. split.
  - intros H p x Hp.
    assert (In (p, x) (map_to_list m)) as Hin
      by by apply list_elem_of_In, elem_of_map_to_list.
    specialize (H _ Hin). simpl in H.
    destruct (names p); [done|].
    by destruct (stat m (Path_parent p)) as [?|[|?]].
  - intros H [p x] Hin%list_elem_of_In%elem_of_map_to_list. simpl.
    destruct (H p x Hin) as [Hn ->]. by destruct (names p).
Qed.


(** What [stat] finds is stored, below directories all the way up. *)
Lemma stat_rev_found_inv m r n up x :
  stat_rev m r (n :: up) = inr x →
  stat_rev m r up = inr Dir ∧ m !! MkPath r (rev (n :: up)) = Some x.
Proof.
  cbn [stat_rev]. destruct (stat_rev m r up) as [e|[|d]]; [done| |done].
  destruct (m !! _) as [y|]; by intros [= ->].
Qed.

Lemma stat_rev_dir_keeps m m' r rns :
  (∀ k, m !! k = Some Dir → m' !! k = Some Dir) →
  stat_rev m r rns = inr Dir → stat_rev m' r rns = inr Dir.
Proof.
  intros Hkeep. induction rns as [|n up IH]; [done|].
  intros [Hup Hself]%stat_rev_found_inv. cbn [stat_rev].
  by rewrite (IH Hup), (Hkeep _ Hself).
Qed.

Lemma stat_found_keeps m m' p x :
  (∀ k, m !! k = Some Dir → m' !! k = Some Dir) →
  (∀ k, is_Some (m !! k) → is_Some (m' !! k)) →
  stat m p = inr x → ∃ x', stat m' p = inr x'.
Proof.
  intros Hkeep Hsome. unfold stat.
  destruct (rev (names p)) as [|n up]; [by eauto|].
  intros [Hup Hself]%stat_rev_found_inv. cbn [stat_rev].
  rewrite (stat_rev_dir_keeps _ _ _ _ Hkeep Hup).
  destruct (Hsome (MkPath (root p) (rev (n :: up)))) as [y Hy]; [by eauto|].
  rewrite Hy. by eauto.
Qed.



(** A new entry below a directory, or new contents for a regular file,
    keep the file system consistent. *)
Lemma consistent_insert m p x :
  consistent m = true → names p ≠ [] →
  stat m (Path_parent p) = inr Dir → m !! p ≠ Some Dir →
  consistent (<[p := x]> m) = true.
Proof.
  intros Hc' Hn Hp Hnd. pose proof (proj1 (consistent_spec m) Hc') as Hc.
  apply consistent_spec.
  assert (∀ k, m !! k = Some Dir → <[p := x]> m !! k = Some Dir) as Hkeep.
  { intros k Hk. rewrite lookup_insert_ne; [done|]. by intros ->. }
  intros k y Hk. destruct (decide (p = k)) as [<-|Hne].
  - split; [done|]. unfold stat in *. by eapply stat_rev_dir_keeps.
  - rewrite lookup_insert_ne in Hk by done.
    destruct (Hc _ _ Hk) as [? Hs]. split; [done|].
    unfold stat in *. by eapply stat_rev_dir_keeps.
Qed.

(** ** Creating directories on a consistent file system *)

Lemma Path_mkdir_here_consistent r n up w res w' :
  consistent (fs w) = true →
  stat_rev (fs w) r up = inr Dir →
  Path_mkdir_here (MkPath r (rev (n :: up))) w = (res, w') →
  consistent (fs w') = true ∧
  (∀ e, res = Raise e →
        w' = w ∧ ∃ d, fs w !! MkPath r (rev (n :: up)) = Some (File d)).
Proof.
  intros Hc Hup. unfold Path_mkdir_here, try_except, os_mkdir.
  rewrite Path_parent_snoc, stat_unfold, Hup.
  destruct (names _) eqn:En; [simpl in En; by destruct (rev up)|].
  destruct (fs w !! MkPath r (rev (n :: up))) as [y|] eqn:El.
  - unfold bind, Path_is_dir. rewrite stat_unfold. cbn [stat_rev].
    rewrite Hup, El. destruct y as [|d]; simpl.
    + intros [= <- <-]. split; [done|]. by intros ? [=].
    + intros [= <- <-]. split; [done|]. intros ? _. by eauto.
  - intros [= <- <-]. split; [|by intros ? [=]]. cbn [fs].
    change (rev up ++ [n]) with (rev (n :: up)).
    apply consistent_insert; [done| | |].
    + simpl. by destruct (rev up).
    + by rewrite Path_parent_snoc, stat_unfold.
    + by rewrite El.
Qed.

Lemma Path_mkdir_rev_consistent r rns w res w' :
  consistent (fs w) = true →
  Path_mkdir_rev r rns w = (res, w') →
  consistent (fs w') = true ∧ (∀ e, res = Raise e → w' = w).
Proof.
  revert w res w'. induction rns as [|n up IH]; intros w res w' Hc.
  - cbn [Path_mkdir_rev]. unfold try_except, os_mkdir; simpl.
    intros [= <- <-]. split; [done|]. by intros ? [=].
  - pose proof (proj1 (consistent_spec _) Hc) as Hc'.
    cbn [Path_mkdir_rev]. unfold try_except at 1. unfold os_mkdir.
    rewrite Path_parent_snoc, stat_unfold.
    destruct (names _) eqn:En; [simpl in En; by destruct (rev up)|].
    destruct (stat_rev (fs w) r up) as [e0|[|d]] eqn:Hup.
    + assert (∀ e, (let* d := Path_is_dir (MkPath r (rev (n :: up)))
                    in if d then ret tt else raise e)%io w
                   = (Raise e, w)) as Hnot.
      { intros e. unfold bind, Path_is_dir. rewrite stat_unfold.
        cbn [stat_rev]. by rewrite Hup. }
      destruct e0; rewrite ?Hnot; try (intros [= <- <-]; split; [done|];
        by intros ? _).
      unfold bind at 1.
      destruct (Path_mkdir_rev r up w) as [[[]|e1] w1] eqn:Hrec.
      * destruct (IH _ _ _ Hc Hrec) as [Hc1 _].
        destruct (Path_mkdir_rev_spec _ _ _ _ _ Hrec) as [Hd Hdir].
        rewrite stat_unfold in Hdir. intros Hhere.
        destruct (Path_mkdir_here_consistent _ _ _ _ _ _ Hc1 Hdir Hhere)
          as [Hc2 Hfail].
        split; [done|]. intros e ->.
        destruct (Hfail e eq_refl) as [_ [d Hd1]].
        apply only_dirs_added_above_weaken in Hd.
        destruct (only_dirs_added_lookup _ _ (MkPath r (rev (n :: up))) Hd)
          as [Heq|[_ Heq]]; [|congruence].
        rewrite Hd1 in Heq. symmetry in Heq.
        destruct (Hc' _ _ Heq) as [_ Hs].
        rewrite Path_parent_snoc, stat_unfold in Hs. congruence.
      * intros [= <- <-]. destruct (IH _ _ _ Hc Hrec) as [Hc1 Hsame].
        split; [done|]. intros e _. by eapply Hsame.
    + destruct (fs w !! MkPath r (rev (n :: up))) as [y|] eqn:El.
      * unfold bind, Path_is_dir. rewrite stat_unfold. cbn [stat_rev].
        rewrite Hup, El.
        destruct y; simpl; intros [= <- <-]; (split; [done|]; by intros ? _).
      * intros [= <- <-]. split; [|by intros ? [=]]. cbn [fs].
        change (rev up ++ [n]) with (rev (n :: up)).
        apply consistent_insert; [done| | |].
        -- simpl. by destruct (rev up).
        -- by rewrite Path_parent_snoc, stat_unfold.
        -- by rewrite El.
    + unfold bind, Path_is_dir. rewrite stat_unfold. cbn [stat_rev].
      rewrite Hup. simpl. intros [= <- <-]. split; [done|]. by intros ? _.
Qed.

Lemma Path_mkdir_rev_blocked r rns w :
  stat_rev (fs w) r rns = inl ENOTDIR →
  Path_mkdir_rev r rns w
  = (Raise (OSError ENOTDIR (Path_str (MkPath r (rev rns)))), w).
Proof.
  destruct rns as [|n up]; [done|]. intros Hs.
  assert (Path_is_dir (MkPath r (rev (n :: up))) w = (Ok false, w)) as Hnot.
  { unfold Path_is_dir. by rewrite stat_unfold, Hs. }
  cbn [stat_rev] in Hs.
  cbn [Path_mkdir_rev]. unfold try_except at 1. unfold os_mkdir.
  rewrite Path_parent_snoc, stat_unfold.
  destruct (names _) eqn:En; [simpl in En; by destruct (rev up)|].
  destruct (stat_rev (fs w) r up) as [e0|[|d]].
  - injection Hs as ->. unfold bind. by rewrite Hnot.
  - by destruct (fs w !! _).
  - unfold bind. by rewrite Hnot.
Qed.

Lemma ensure_parent_consistent p w r w' :
  consistent (fs w) = true → ensure_parent p w = (r, w') →
  consistent (fs w') = true ∧ (∀ e, r = Raise e → w' = w).
Proof.
  intros Hc. destruct (stat (fs w) (Path_parent p)) as [e|nd] eqn:Hs.
  - rewrite (ensure_parent_missing _ _ _ Hs). unfold Path_mkdir.
    by apply Path_mkdir_rev_consistent.
  - rewrite (ensure_parent_present _ _ _ Hs). intros [= <- <-].
    split; [done|]. by intros ? [=].
Qed.

(** ** [ensure_parent] *)

Lemma ensure_parent_blocked p w :
  stat (fs w) (Path_parent p) = inl ENOTDIR →
  ensure_parent p w
  = (Raise (OSError ENOTDIR (Path_str (Path_parent p))), w).
Proof.
  intros Hs. rewrite (ensure_parent_missing _ _ _ Hs). unfold Path_mkdir.
  rewrite Path_mkdir_rev_blocked by done. rewrite rev_involutive.
  by destruct (Path_parent p).
Qed.

(** X1. When a regular file stands where a directory is needed on the way
    to the parent, [ensure_parent] raises [NotADirectoryError] for the
    parent and leaves the world as it was. *)
Theorem ensure_parent_blocked_by_a_file p w :
  stat (fs w) (Path_parent p) = inl ENOTDIR →
  ensure_parent p w
  = (Raise (OSError ENOTDIR (Path_str (Path_parent p))), w).
Proof. apply ensure_parent_blocked. Qed.


(** X3. On a consistent file system a second call of [ensure_parent] for
    the same path, spelled without [..], has the outcome of the first and
    changes nothing. *)
Theorem ensure_parent_twice p w r w' :
  consistent (fs w) = true →
  plain p = true →
  ensure_parent p w = (r, w') → ensure_parent p w' = (r, w').
Proof.
  intros Hc _ Hrun. destruct r as [[]|e].
  - destruct (ensure_parent_spec _ _ _ _ Hrun) as (_ & nd & Hnd & _).
    by eapply ensure_parent_present.
  - destruct (ensure_parent_consistent _ _ _ _ Hc Hrun) as [_ Hsame].
    by rewrite (Hsame e eq_refl) in *.
Qed.

(** ** The parent that is missing *)


(** ** One turn of the loop on a consistent file system *)

Lemma above_parent_shorter q p :
  names p ≠ [] → above q (Path_parent p) → q ≠ p.
Proof.
  intros Hne [_ Hpre%prefix_length] ->.
  pose proof (Path_parent_shorter p Hne). lia.
Qed.

Lemma write_output_consistent first_page out w r w' :
  consistent (fs w) = true → wf_path out.1 →
  write_output first_page out w = (r, w') →
  consistent (fs w') = true ∧ (∀ e, r = Raise e → w' = w).
Proof.
  destruct out as [p fmt]; cbn [fst]. intros Hc Hwf.
  pose proof (proj1 (consistent_spec _) Hc) as Hc'.
  unfold write_output. unfold bind at 1.
  destruct (ensure_parent p w) as [[[]|e1] w1] eqn:He.
  2:{ intros [= <- <-].
      destruct (ensure_parent_consistent _ _ _ _ Hc He) as [Hc1 Hsame].
      split; [done|]. intros e _. by eapply Hsame. }
  destruct (ensure_parent_consistent _ _ _ _ Hc He) as [Hc1 _].
  destruct (ensure_parent_spec _ _ _ _ He)
    as ((made & Hab & Hd) & nd & Hnd & Hwas).
  unfold bind, Image_save. rewrite (Path_of_str p Hwf), Hnd.
  destruct (names p) as [|n0 ns0] eqn:En.
  { intros [= <- <-]. split; [done|]. intros e _.
    assert (Path_parent p = p) as Hpp by (unfold Path_parent; by rewrite En).
    assert (stat (fs w) (Path_parent p) = inr Dir) as Hs
      by (rewrite Hpp; unfold stat; by rewrite En).
    rewrite (ensure_parent_present _ _ _ Hs) in He. congruence. }
  assert (nd ≠ Dir ∨ fs w1 !! p = Some Dir → w1 = w) as Hback.
  { destruct Hwas as [[_ ?]|[[e0 He0] ->]]; [done|]. intros [?|Hp]; [done|].
    destruct Hd as [_ Hfs]. destruct (Hfs p) as [_ Hout].
    assert (p ∉ made) as Hnot.
    { intros Hin. rewrite Forall_forall in Hab.
      eapply above_parent_shorter; [|by apply Hab|done]. by rewrite En. }
    rewrite (Hout Hnot) in Hp. destruct (Hc' _ _ Hp) as [_ Hs]. congruence. }
  destruct nd as [|d].
  2:{ intros [= <- <-]. split; [done|]. intros e _. apply Hback. by left. }
  destruct (fs w1 !! p) as [[|d]|] eqn:El.
  - intros [= <- <-]. split; [done|]. intros e _. apply Hback. by right.
  - unfold print, log. intros [= <- <-]. split; [|by intros ? [=]].
    cbn [fs]. apply consistent_insert; [done|by rewrite En|done|].
    by rewrite El.
  - unfold print, log. intros [= <- <-]. split; [|by intros ? [=]].
    cbn [fs]. apply consistent_insert; [done|by rewrite En|done|].
    by rewrite El.
Qed.

Lemma for_each_consistent first_page outs w r w' :
  consistent (fs w) = true → Forall (λ out, wf_path out.1) outs →
  for_each outs (write_output first_page) w = (r, w') →
  consistent (fs w') = true.
Proof.
  intros Hc Hwf. revert w Hc.
  induction Hwf as [|out outs Hout _ IH]; intros w Hc.
  - by intros [= <- <-].
  - cbn [for_each]. unfold bind at 1.
    destruct (write_output first_page out w) as [[[]|e] w1] eqn:Hstep;
      destruct (write_output_consistent _ _ _ _ _ Hc Hout Hstep) as [Hc1 _].
    + by apply IH.
    + by intros [= <- <-].
Qed.

(** ** The whole run on a consistent file system *)

(** X4. A run keeps the file system consistent, however it ends: nothing
    it stores is left without a directory to be in. *)
Theorem main_keeps_the_file_system_consistent
    (conv : rasterizer image) args w r w' :
  consistent (fs w) = true →
  main conv args w = (r, w') →
  consistent (fs w') = true.
Proof.
  intros Hc Hrun. destruct (main_cases _ _ _ _ _ Hrun) as
    [msg _ _ ->|e _ _ _ _ ->|_ _ _ _ ->
    |first_page rest fin Hin Hne Hp _ _]; try done.
  rewrite (main_loop _ _ _ _ _ Hin Hne Hp) in Hrun.
  eapply for_each_consistent; [|apply build_outputs_wf|exact Hrun]. done.
Qed.



(** ** What a run leaves alone *)

Lemma write_output_keeps_dirs first_page out w r w' q :
  wf_path out.1 → write_output first_page out w = (r, w') →
  fs w !! q = Some Dir → fs w' !! q = Some Dir.
Proof.
  intros Hwf Hrun Hq.
  destruct (write_output_spec _ _ _ _ _ Hwf Hrun)
    as (r1 & w1 & _ & Hd%only_dirs_added_above_weaken & Hr).
  pose proof (only_dirs_added_keeps _ _ _ _ Hd Hq) as Hq1.
  destruct r as [[]|e].
  - destruct Hr as (_ & _ & Hnd & ->). simpl.
    rewrite lookup_insert_ne; [done|]. intros Heq. by rewrite Heq in Hnd.
  - by destruct Hr as [-> _].
Qed.

Lemma for_each_keeps_dirs first_page outs w r w' q :
  Forall (λ out, wf_path out.1) outs →
  for_each outs (write_output first_page) w = (r, w') →
  fs w !! q = Some Dir → fs w' !! q = Some Dir.
Proof.
  intros Hwf. revert w. induction Hwf as [|out outs Hout _ IH]; intros w.
  - by intros [= <- <-].
  - cbn [for_each]. unfold bind at 1.
    destruct (write_output first_page out w) as [[[]|e] w1] eqn:Hstep.
    + intros Hrest Hq. eapply IH; [done|].
      by eapply write_output_keeps_dirs.
    + intros [= <- <-] Hq. by eapply write_output_keeps_dirs.
Qed.


(** ** The call to the rasterizer *)

(** X8. The rasterizer is called once, with the input path as pathlib
    prints it and the resolution given, exactly in the runs that pass
    both checks; in all other runs it is not called, and it is never
    called a second time. *)
Theorem rasterizer_called_once_after_the_checks
    (conv : rasterizer image) args w r w' :
  main conv args w = (r, w') →
  rasterizer_calls (history w')
  = rasterizer_calls (history w) ++ expected_call args w.
Proof.
  intros Hrun. unfold expected_call.
  assert (rasterizer_calls (history (rasterizing args w))
          = rasterizer_calls (history w) ++
            [(Path_str (Path_of (input args)), dpi args)]) as Hcall.
  { simpl. by rewrite rasterizer_calls_app. }
  destruct (main_cases _ _ _ _ _ Hrun) as
    [msg Hrej _ ->|e Hin Hne _ _ ->|Hin Hne _ _ ->
    |first_page rest fin Hin Hne _ Hpost _].
  - destruct Hrej as [-> | ->]; [by rewrite app_nil_r|].
    rewrite bool_decide_eq_true_2 by done.
    by rewrite andb_false_r, app_nil_r.
  - by rewrite Hin, bool_decide_eq_false_2.
  - by rewrite Hin, bool_decide_eq_false_2.
  - rewrite Hin, bool_decide_eq_false_2 by done.
    by rewrite (loop_rasterizer _ _ _ _ Hpost).
Qed.

(** X9. An exception raised by the rasterizer ends the run with nothing
    written and nothing printed; when the rasterizer was reached, the
    exception leaves [main] as it came. *)
Theorem rasterizer_error_propagates
    (conv : rasterizer image) args w e r w' :
  pages_of conv args w = Raise e →
  main conv args w = (r, w') →
  fs w' = fs w ∧
  saves (history w') = saves (history w) ∧
  stdout (history w') = stdout (history w) ∧
  exit_status r = 1%Z ∧
  (input_exists args w = true → build_outputs args ≠ [] →
     r = Raise e ∧ w' = rasterizing args w).
Proof.
  intros Hp Hrun. destruct (rasterizing_history args w) as [Hs Ho].
  destruct (main_cases _ _ _ _ _ Hrun) as
    [msg Hrej -> ->|e' Hin Hne Hp' -> ->|_ _ Hp' _ _
    |first_page rest fin _ _ Hp' _ _]; try congruence.
  - repeat split; try done; destruct Hrej; congruence.
  - assert (e' = e) as -> by congruence. by repeat split.
Qed.

(** ** The exit status *)

(** X10. The exit status is 0 exactly when an output was requested and
    every requested output was saved, in the order requested.  A run
    prints one line per save, and saves at most what was requested, which
    is at most two files. *)
Theorem exit_status_tells_whether_all_was_written
    (conv : rasterizer image) args w r w' :
  main conv args w = (r, w') →
  ∃ evs,
    history w' = history w ++ evs ∧
    (exit_status r = 0%Z ↔
       build_outputs args ≠ [] ∧ map fst (saves evs) = build_outputs args) ∧
    List.length (stdout evs) = List.length (saves evs) ∧
    (List.length (saves evs) ≤ List.length (build_outputs args))%nat ∧
    (List.length (build_outputs args) ≤ 2)%nat.
Proof.
  intros Hrun.
  assert (List.length (build_outputs args) ≤ 2)%nat as Htwo.
  { unfold build_outputs.
    destruct (truthy (png args)), (truthy (jpg args)); simpl; lia. }
  destruct (main_cases _ _ _ _ _ Hrun) as
    [msg _ -> ->|e _ Hne _ -> ->|_ Hne _ -> ->
    |first_page rest fin _ Hne _ Hpost Hr].
  - exists []. rewrite app_nil_r. repeat split; simpl; try done; try lia.
    intros [Hn He]. by rewrite <- He in Hn.
  - eexists [_]. split; [done|]. repeat split; simpl; try done; try lia.
    intros [Hn He]. by rewrite <- He in Hn.
  - eexists [_]. split; [done|]. repeat split; simpl; try done; try lia.
    intros [Hn He]. by rewrite <- He in Hn.
  - destruct Hpost as [(evs & Hev & Hconf) Hs Ho _ _ _ _].
    rewrite Hev, saves_app in Hs. rewrite Hev, stdout_app in Ho.
    apply app_inv_head in Hs, Ho.
    exists (Rasterized (Path_str (Path_of (input args))) (dpi args) :: evs).
    split; [by rewrite Hev; simpl; rewrite <- app_assoc|].
    cbn [saves stdout]. rewrite Hs, Ho, !length_map.
    assert (map fst (map (record_of first_page) fin) = fin) as Hfst.
    { clear. induction fin as [|[] ? IH]; simpl; [done|]. by rewrite IH. }
    rewrite Hfst. split; [|split; [done|]].
    + destruct r as [[]|e]; simpl.
      * simpl in Hr. by rewrite Hr.
      * destruct Hr as (_ & out & rest' & w1 & Hout & _).
        split; [done|]. intros [_ Heq]. rewrite <- Heq in Hout.
        apply (f_equal List.length) in Hout. rewrite length_app in Hout.
        simpl in Hout. lia.
    + destruct r as [[]|e]; [simpl in Hr; by rewrite Hr|].
      destruct Hr as (_ & out & rest' & w1 & Hout & _).
      rewrite Hout in Htwo |- *. rewrite length_app in *. lia.
Qed.

(** ** Running the script again *)

Lemma write_output_saved_a_name first_page out w w' :
  wf_path out.1 → write_output first_page out w = (Ok tt, w') →
  names out.1 ≠ [].
Proof.
  destruct out as [p fmt]; cbn [fst]. intros Hwf.
  unfold write_output. unfold bind at 1.
  destruct (ensure_parent p w) as [[[]|e1] w1]; [|done].
  unfold bind, Image_save. rewrite (Path_of_str p Hwf).
  by destruct (names p).
Qed.

(** A turn for an output whose parent directory is there. *)
Lemma write_output_present first_page out w :
  wf_path out.1 → names out.1 ≠ [] →
  stat (fs w) (Path_parent out.1) = inr Dir →
  fs w !! out.1 ≠ Some Dir →
  write_output first_page out w = (Ok tt, after_write first_page out w).
Proof.
  destruct out as [p fmt]; cbn [fst]. intros Hwf Hn Hs Hp.
  unfold write_output. unfold bind at 1.
  rewrite (ensure_parent_present _ _ _ Hs).
  unfold bind, Image_save. rewrite (Path_of_str p Hwf), Hs.
  destruct (names p); [done|].
  unfold print, log, after_write. simpl.
  destruct (fs w !! p) as [[|d]|]; [done|simpl; by rewrite <- app_assoc..].
Qed.

Lemma after_write_keeps_dirs first_page out w q :
  fs w !! out.1 ≠ Some Dir →
  fs w !! q = Some Dir → fs (after_write first_page out w) !! q = Some Dir.
Proof.
  intros Hp Hq. simpl. rewrite lookup_insert_ne; [done|].
  intros Heq. by rewrite Heq in Hp.
Qed.

(** After a run of the loop that returned, every output has a name, lies
    in a directory and is not a directory. *)
Lemma for_each_leaves_outputs_in_place first_page outs w w' :
  Forall (λ out, wf_path out.1) outs →
  for_each outs (write_output first_page) w = (Ok tt, w') →
  ∀ out, out ∈ outs →
    names out.1 ≠ [] ∧
    stat (fs w') (Path_parent out.1) = inr Dir ∧
    fs w' !! out.1 ≠ Some Dir.
Proof.
  intros Hwf. revert w. induction Hwf as [|a outs Ha Hwf IH]; intros w.
  - intros _ out Hin. by apply elem_of_nil in Hin.
  - cbn [for_each]. unfold bind at 1.
    destruct (write_output first_page a w) as [[[]|e] wa] eqn:Hstep; [|done].
    intros Hrest out [->|Hin]%elem_of_cons; [|by eapply IH].
    split; [by eapply write_output_saved_a_name|].
    destruct (write_output_spec _ _ _ _ _ Ha Hstep)
      as (r1 & w1 & _ & _ & _ & Hs & Hnd & ->).
    destruct (for_each_spec _ _ _ _ _ Hwf Hrest) as (fin & Hpost & _).
    split.
    + eapply stat_rev_dir_keeps; [|exact Hs]. intros k Hk.
      eapply for_each_keeps_dirs; [done..|].
      by apply after_write_keeps_dirs.
    + destruct (loop_fs _ _ _ _ Hpost a.1) as [Hq|[[Hq _]|(fmt & _ & ->)]];
        [rewrite Hq| |done]; simpl in *; by rewrite ?lookup_insert_eq in *.
Qed.

(** The last save to a path decides what is stored there. *)
Lemma for_each_last_save_wins first_page outs w w' front out back :
  Forall (λ out, wf_path out.1) outs →
  for_each outs (write_output first_page) w = (Ok tt, w') →
  outs = front ++ out :: back →
  (∀ out', out' ∈ back → out'.1 ≠ out.1) →
  fs w' !! out.1 = Some (File (Encoded out.2 first_page)).
Proof.
  intros Hwf. revert w front.
  induction Hwf as [|a outs Ha Hwf IH]; intros w front.
  - intros _ Heq. by destruct front.
  - cbn [for_each]. unfold bind at 1.
    destruct (write_output first_page a w) as [[[]|e] wa] eqn:Hstep; [|done].
    intros Hrest Heq Hback. destruct front as [|a' front]; simplify_eq/=.
    + destruct (write_output_spec _ _ _ _ _ Ha Hstep)
        as (r1 & w1 & _ & _ & _ & _ & _ & ->).
      destruct (for_each_spec _ _ _ _ _ Hwf Hrest) as (fin & Hpost & ->).
      destruct (loop_fs _ _ _ _ Hpost out.1)
        as [Hq|[[Hq _]|(fmt & Hin & _)]]; simpl in *.
      * by rewrite Hq, lookup_insert_eq.
      * by rewrite lookup_insert_eq in Hq.
      * by destruct (Hback _ Hin).
    + by eapply IH.
Qed.

(** The loop over outputs that are all in place. *)
Lemma for_each_in_place first_page outs w :
  Forall (λ out, wf_path out.1) outs →
  (∀ out, out ∈ outs →
     names out.1 ≠ [] ∧
     stat (fs w) (Path_parent out.1) = inr Dir ∧
     fs w !! out.1 ≠ Some Dir) →
  ∃ w', for_each outs (write_output first_page) w = (Ok tt, w') ∧
        stdout (history w') = stdout (history w) ++ map line_of outs ∧
        ∀ q, (∀ out, out ∈ outs → out.1 ≠ q) → fs w' !! q = fs w !! q.
Proof.
  intros Hwf. revert w. induction Hwf as [|a outs Ha Hwf IH]; intros w Hall.
  - exists w. split; [done|]. split; [by rewrite app_nil_r|done].
  - destruct (Hall a) as (Hn & Hs & Hp); [by left|].
    cbn [for_each]. unfold bind at 1.
    rewrite (write_output_present _ _ _ Ha Hn Hs Hp).
    destruct (IH (after_write first_page a w)) as (w' & Hrun & Hout & Hfs).
    { intros out Hin. destruct (Hall out) as (Hn' & Hs' & Hp'); [by right|].
      split; [done|]. split.
      - eapply stat_rev_dir_keeps; [|exact Hs']. intros k.
        by apply after_write_keeps_dirs.
      - simpl. destruct (decide (a.1 = out.1)) as [->|Hne].
        + by rewrite lookup_insert_eq.
        + by rewrite lookup_insert_ne. }
    exists w'. split; [done|]. split.
    + rewrite Hout. simpl. rewrite stdout_app. simpl.
      by rewrite <- app_assoc.
    + intros q Hq. rewrite Hfs by (intros out Hin; apply Hq; by right).
      simpl. rewrite lookup_insert_ne; [done|]. apply Hq. by left.
Qed.

Lemma last_with_path (outs : list (Path * string)) q :
  (∀ out, out ∈ outs → out.1 ≠ q) ∨
  ∃ front out back,
    outs = front ++ out :: back ∧ out.1 = q ∧
    ∀ out', out' ∈ back → out'.1 ≠ q.
Proof.
  induction outs as [|a outs IH].
  - left. intros out Hin. by apply elem_of_nil in Hin.
  - destruct IH as [Hnone|(front & out & back & -> & Hq & Hback)].
    + destruct (decide (a.1 = q)) as [Ha|Ha].
      * right. by exists [], a, outs.
      * left. intros out [->|Hin]%elem_of_cons; [done|by apply Hnone].
    + right. by exists (a :: front), out, back.
Qed.

(** X11. Running the same invocation again after a run that returned
    returns again, prints the same confirmations and leaves the file
    system exactly as the first run left it (the rasterizer giving the
    same first page). *)
Theorem second_run_changes_nothing
    (conv : rasterizer image) args w w' first_page rest rest' :
  main conv args w = (Ok tt, w') →
  pages_of conv args w = Ok (first_page :: rest) →
  pages_of conv args w' = Ok (first_page :: rest') →
  ∃ w'',
    main conv args w' = (Ok tt, w'') ∧
    fs w'' = fs w' ∧
    stdout (history w'')
      = stdout (history w') ++ map line_of (build_outputs args).
Proof.
  intros Hrun Hp Hp'. destruct (main_cases _ _ _ _ _ Hrun) as
    [msg _ ? _|e _ _ _ ? _|_ _ _ ? _
    |first_page' rest0 fin Hin Hne Hp0 Hpost _]; try discriminate.
  assert (first_page' = first_page) as -> by congruence.
  pose proof (build_outputs_wf args) as Hwf.
  rewrite (main_loop _ _ _ _ _ Hin Hne Hp) in Hrun.
  pose proof (for_each_leaves_outputs_in_place _ _ _ _ Hwf Hrun) as Hplace.
  assert (input_exists args w' = true) as Hin'.
  { unfold input_exists in Hin |- *.
    destruct (stat (fs w) (Path_of (input args))) as [|x] eqn:Hs; [done|].
    destruct (stat_found_keeps (fs w) (fs w') (Path_of (input args)) x)
      as [x' Hx']; [| |exact Hs|by rewrite Hx'].
    - intros k Hk. eapply for_each_keeps_dirs; [exact Hwf|exact Hrun|exact Hk].
    - intros k [y Hy].
      destruct (loop_fs _ _ _ _ Hpost k) as [Hq|[[Hq _]|(fmt & _ & Hq)]];
        simpl in Hq; [rewrite Hq; by eauto|congruence|by eauto]. }
  rewrite (main_loop _ _ _ _ _ Hin' Hne Hp').
  destruct (for_each_in_place first_page (build_outputs args)
              (rasterizing args w') Hwf Hplace) as (w'' & Hrun' & Hout & Hfs).
  exists w''. split; [done|]. split.
  - apply map_eq. intros q.
    destruct (last_with_path (build_outputs args) q)
      as [Hnone|(front & out & back & Heq & <- & Hback)].
    + by rewrite (Hfs q Hnone).
    + rewrite (for_each_last_save_wins _ _ _ _ _ _ _ Hwf Hrun' Heq Hback).
      by rewrite (for_each_last_save_wins _ _ _ _ _ _ _ Hwf Hrun Heq Hback).
  - rewrite Hout. simpl. by rewrite stdout_app, app_nil_r.
Qed.

End Further.

(** ** Runs of the samples, continued *)



(** [--png notes/img/out.png] where [notes] is a regular file. *)
Lemma ensure_parent_blocked_witness :
  let p := Path_of "notes/img/out.png" in
  let w := Sample.fresh Sample.blocked_disk in
  stat (fs w) (Path_parent p) = inl ENOTDIR ∧
  ensure_parent p w = (Raise (OSError ENOTDIR "notes/img"), w).
Proof.
  intros p w.
  assert (stat (fs w) (Path_parent p) = inl ENOTDIR) as Hs by reflexivity.
  split; [exact Hs|]. exact (ensure_parent_blocked_by_a_file p w Hs).
Defined.


(** The same call a second time. *)
Lemma ensure_parent_twice_witness :
  let p := Path_of "img/a/out.png" in
  let w := Sample.fresh Sample.disk in
  consistent (fs w) = true ∧
  plain p = true ∧
  ensure_parent p (ensure_parent p w).2 = ensure_parent p w.
Proof.
  intros p w.
  assert (consistent (fs w) = true) as Hc by (vm_compute; reflexivity).
  split; [exact Hc|]. split; [reflexivity|].
  rewrite (ensure_parent_twice p w _ _ Hc eq_refl (surjective_pairing _)).
  symmetry. apply surjective_pairing.
Defined.

(** The clashing outputs: consistent before, consistent after. *)
Lemma main_keeps_consistent_witness :
  let args := Sample.args_clash in
  let w := Sample.fresh Sample.disk in
  let conv := Sample.pages 3 in
  consistent (fs w) = true ∧
  (main conv args w).1 = Raise (OSError ENOTDIR "out/invoice.jpg") ∧
  consistent (fs (main conv args w).2) = true.
Proof.
  intros args w conv.
  assert (consistent (fs w) = true) as Hc by (vm_compute; reflexivity).
  split; [exact Hc|]. split; [vm_compute; reflexivity|].
  exact (main_keeps_the_file_system_consistent conv args w _ _ Hc
           (surjective_pairing _)).
Defined.




(** One call, with the path and the resolution of the invocation. *)
Lemma rasterizer_called_once_witness :
  let args := Sample.args_both in
  let w := Sample.fresh Sample.disk in
  let conv := Sample.pages 3 in
  rasterizer_calls (history (main conv args w).2) = [("invoice.pdf", 200%Z)].
Proof.
  intros args w conv.
  exact (rasterizer_called_once_after_the_checks conv args w _ _
           (surjective_pairing _)).
Defined.

(** A document the rasterizer cannot read. *)
Lemma rasterizer_error_witness :
  let args := Sample.args_png in
  let w := Sample.fresh Sample.disk in
  let conv := Sample.broken in
  pages_of conv args w = Raise (ForeignError "PDFPageCountError") ∧
  main conv args w
    = (Raise (ForeignError "PDFPageCountError"), rasterizing args w) ∧
  fs (main conv args w).2 = fs w.
Proof.
  intros args w conv.
  assert (pages_of conv args w = Raise (ForeignError "PDFPageCountError"))
    as Hp by reflexivity.
  destruct (rasterizer_error_propagates conv args w _ _ _ Hp
              (surjective_pairing _)) as (Hfs & _ & _ & _ & Hreached).
  assert (build_outputs args ≠ []) as Hne by discriminate.
  destruct (Hreached eq_refl Hne) as [Hr Hw].
  split; [exact Hp|]. split; [|exact Hfs].
  rewrite <- Hr, <- Hw. apply surjective_pairing.
Defined.

(** Two outputs, both written: exit status 0. *)
Lemma exit_status_witness :
  let args := Sample.args_both in
  let w := Sample.fresh Sample.disk in
  let conv := Sample.pages 3 in
  ∃ evs,
    history (main conv args w).2 = history w ++ evs ∧
    exit_status (main conv args w).1 = 0%Z ∧
    map fst (saves evs) = build_outputs args ∧
    List.length (stdout evs) = 2.
Proof.
  intros args w conv.
  destruct (exit_status_tells_whether_all_was_written conv args w _ _
              (surjective_pairing _)) as (evs & Hh & Hiff & Hlines & _).
  assert (exit_status (main conv args w).1 = 0%Z) as Hz
    by (vm_compute; reflexivity).
  destruct (proj1 Hiff Hz) as [_ Hall].
  exists evs. split; [exact Hh|]. split; [exact Hz|]. split; [exact Hall|].
  rewrite Hlines, <- (length_map fst), Hall. reflexivity.
Defined.

(** The two outputs once more. *)
Lemma second_run_witness :
  let args := Sample.args_both in
  let w := Sample.fresh Sample.disk in
  let conv := Sample.pages 3 in
  ∃ w' w'',
    main conv args w = (Ok tt, w') ∧
    main conv args w' = (Ok tt, w'') ∧
    fs w'' = fs w'.
Proof.
  intros args w conv.
  assert ((main conv args w).1 = Ok tt) as Hr by (vm_compute; reflexivity).
  assert (main conv args w = (Ok tt, (main conv args w).2)) as Hrun
    by (rewrite <- Hr; apply surjective_pairing).
  destruct (second_run_changes_nothing conv args w _ 0 [1; 2] [1; 2]
              Hrun eq_refl eq_refl) as (w'' & Hrun' & Hfs & _).
  exists (main conv args w).2, w''.
  split; [exact Hrun|]. split; [exact Hrun'|exact Hfs].
Defined.
